(** * chord_finder: chords contained in a mode

    A shallow embedding of [chord_finder.py] and the properties its
    specification states about it.

    Python values are modelled as follows.
    - [int] is [Z] (Python integers are unbounded).
    - [str] is [string]; a list is a [list]; a tuple of ints is [list Z].
    - A [dict] whose iteration order is observed (the chord table, the
      mode table, the search result) is a [pydict]: an association list
      with Python's insertion-order update.  A [dict] that is only ever
      looked up (the pitch tables) is a [gmap].
    - A raised exception is the [Raise] branch of [result]. *)

From Equations Require Import Equations.
From Stdlib Require Import Ascii String Sorted.
From stdpp Require Import gmap strings list.

Open Scope Z_scope.

(** ** Exceptions and the error monad *)

Inductive pykey :=
| KStr (s : string)
| KInt (z : Z)
| KTuple (t : list Z).

Inductive exn :=
| KeyError (k : pykey)
| IndexError
| TypeError
| FileNotFoundError (path : string)
| NotPossible (num : Z).

Inductive result (A : Type) :=
| Ok (a : A)
| Raise (e : exn).
Arguments Ok {A} a.
Arguments Raise {A} e.

#[global] Instance result_ret : MRet result := fun _ a => Ok a.
#[global] Instance result_bind : MBind result := fun _ _ f m =>
  match m with
  | Ok a => f a
  | Raise e => Raise e
  end.

(** A [for] loop threading an accumulator; the first exception ends it. *)
Fixpoint foldM {A S : Type} (body : S -> A -> result S) (s : S) (l : list A)
  : result S :=
  match l with
  | [] => Ok s
  | a :: l' => s' ← body s a; foldM body s' l'
  end.

(** A list comprehension [[f x for x in l]]. *)
Fixpoint mapM {A B : Type} (f : A -> result B) (l : list A) : result (list B) :=
  match l with
  | [] => Ok []
  | a :: l' => b ← f a; bs ← mapM f l'; Ok (b :: bs)
  end.

(** ** Python dictionaries with insertion order *)

Section pydict.
Context {K V : Type} `{EqDecision K}.

Definition pydict := list (K * V).

(** [d[k]], with [None] standing for the [KeyError]. *)
Fixpoint dict_get (k : K) (d : list (K * V)) : option V :=
  match d with
  | [] => None
  | (k', v) :: d' => if decide (k = k') then Some v else dict_get k d'
  end.

(** [d[k] = v]: an existing key keeps its place, a new one goes last. *)
Fixpoint dict_set (k : K) (v : V) (d : list (K * V)) : list (K * V) :=
  match d with
  | [] => [(k, v)]
  | (k', v') :: d' =>
      if decide (k = k') then (k', v) :: d' else (k', v') :: dict_set k v d'
  end.

Definition dict_keys (d : list (K * V)) : list K := d.*1.

Definition getitem (mk : K -> pykey) (d : list (K * V)) (k : K) : result V :=
  match dict_get k d with
  | Some v => Ok v
  | None => Raise (KeyError (mk k))
  end.

End pydict.
Arguments pydict : clear implicits.

Definition getitem_map {K V : Type} `{Countable K} (mk : K -> pykey)
    (d : gmap K V) (k : K) : result V :=
  match d !! k with
  | Some v => Ok v
  | None => Raise (KeyError (mk k))
  end.

(** ** [reset_octave] *)

(** The first loop: [while num < 0: num += 12; if num > 11: raise]. *)
Equations? while_negative (num : Z) : result Z by wf (Z.to_nat (- num)) lt :=
  while_negative num with decide (num < 0) := {
    | left _ with decide (num + 12 > 11) := {
        | left _ := Raise (NotPossible (num + 12));
        | right _ := while_negative (num + 12) };
    | right _ := Ok num }.
Proof. lia. Qed.

(** The second loop: [while num > 11: num -= 12; if num < 0: raise]. *)
Equations? while_above (num : Z) : result Z by wf (Z.to_nat num) lt :=
  while_above num with decide (num > 11) := {
    | left _ with decide (num - 12 < 0) := {
        | left _ := Raise (NotPossible (num - 12));
        | right _ := while_above (num - 12) };
    | right _ := Ok num }.
Proof. lia. Qed.

Definition reset_octave (num : Z) : result Z :=
  num ← while_negative num; while_above num.

(** The same two loops driven by a step budget, to count iterations:
    [None] means the budget ran out before the loop condition failed. *)
Fixpoint while_fuel (fuel : nat) (cond : Z -> bool) (body : Z -> result Z)
    (num : Z) : option (result Z) :=
  if cond num then
    match fuel with
    | O => None
    | S fuel' =>
        match body num with
        | Ok num' => while_fuel fuel' cond body num'
        | Raise e => Some (Raise e)
        end
    end
  else Some (Ok num).

Definition negative_body (num : Z) : result Z :=
  let num := num + 12 in
  if bool_decide (num > 11) then Raise (NotPossible num) else Ok num.

Definition above_body (num : Z) : result Z :=
  let num := num - 12 in
  if bool_decide (num < 0) then Raise (NotPossible num) else Ok num.

Definition reset_octave_fuel (fuel : nat) (num : Z) : option (result Z) :=
  match while_fuel fuel (fun n => bool_decide (n < 0)) negative_body num with
  | Some (Ok num') =>
      while_fuel fuel (fun n => bool_decide (n > 11)) above_body num'
  | other => other
  end.

(** Distance of [num] from the closed range [0, 11]. *)
Definition octave_distance (num : Z) : Z :=
  if decide (num < 0) then - num
  else if decide (num > 11) then num - 11
  else 0.

(** ** Strings *)

(** [sep in s] for a one-character [sep]. *)
Fixpoint str_contains (c : ascii) (s : string) : bool :=
  match s with
  | EmptyString => false
  | String c' s' => if decide (c = c') then true else str_contains c s'
  end.

(** [s.split(' ')]: the pieces between single spaces, [cur] being the
    piece under construction. *)
Fixpoint split_go (cur : string) (s : string) : list string :=
  match s with
  | EmptyString => [cur]
  | String c s' =>
      if decide (c = " "%char) then cur :: split_go "" s'
      else split_go (cur +:+ String c "") s'
  end.

Definition split_space (s : string) : list string := split_go "" s.

(** [enumerate(l)]. *)
Definition enumerate {A : Type} (l : list A) : list (Z * A) :=
  zip (Z.of_nat <$> seq 0 (length l)) l.

(** The format field [{: <2}]: left-aligned, filled with spaces to
    width 2. *)
Definition ljust2 (s : string) : string :=
  match String.length s with
  | 0%nat => s +:+ "  "
  | 1%nat => s +:+ " "
  | _ => s
  end.

(** [sorted(v)] on strings, by insertion. *)
Fixpoint insert_sorted (x : string) (l : list string) : list string :=
  match l with
  | [] => [x]
  | y :: l' => if String.leb x y then x :: l else y :: insert_sorted x l'
  end.

Definition sorted (l : list string) : list string :=
  foldr insert_sorted [] l.

(** ** [generate_pitch_names] *)

Definition sharp_names : list string :=
  split_space "C C# D D# E F F# G G# A A# B".

Definition flat_names : list string :=
  split_space "C Db D Eb E F Gb G Ab A Bb B".

(** The spelling in force after the first [if] of the function. *)
Definition resolved_sharped (starting_pitch : string) (sharped : bool) : bool :=
  if str_contains "b" starting_pitch && sharped then false else sharped.

Definition pitch_names_for (sharped : bool) : list string :=
  if sharped then sharp_names else flat_names.

(** Lines 55-57: the table built from the chosen list of names. *)
Definition pitch_table (pitch_names : list string) (starting_pitch : string)
  : result (gmap Z string) :=
  let pitches : gmap string Z :=
    foldl (fun m '(i, k) => <[k := i]> m) ∅ (enumerate pitch_names) in
  a ← getitem_map KStr pitches starting_pitch;
  c ← getitem_map KStr pitches "C";
  let diff := a - c in
  foldM (fun m '(i, k) => j ← reset_octave (i - diff); Ok (<[j := k]> m))
        ∅ (enumerate pitch_names).

Definition generate_pitch_names (starting_pitch : string) (sharped : bool)
  : result (gmap Z string) :=
  let sharped := resolved_sharped starting_pitch sharped in
  pitch_table (pitch_names_for sharped) starting_pitch.

(** The invariant of a pitch name mapping, as a decidable check: twelve
    entries, on the indices 0..11, no name twice, the names being those
    of [pitch_names], and index 0 naming [starting_pitch]. *)
Definition pitch_mapping_ok (pitch_names : list string)
    (starting_pitch : string) (m : gmap Z string) : bool :=
  bool_decide (size m = 12%nat)
  && bool_decide (dom m = list_to_set (Z.of_nat <$> seq 0 12))
  && bool_decide (NoDup (map_to_list m).*2)
  && bool_decide ((list_to_set (map_to_list m).*2 : gset string)
                  = list_to_set pitch_names)
  && bool_decide (m !! 0 = Some starting_pitch).

(** ** [name_chord] *)

Definition name_chord (root : Z) (interval_tup : list Z)
    (pitch_dct : gmap Z string) (chord_intervals : pydict (list Z) string)
  : result string :=
  p ← getitem_map KInt pitch_dct root;
  c ← getitem KTuple chord_intervals interval_tup;
  Ok (ljust2 p +:+ c).

(** ** [pretty_print_dict] *)

(** The lines written to standard output. *)
Definition pretty_print_dict (chord_dct : pydict Z (list string))
  : list string :=
  flat_map (fun '(k, v) => (fun x => " - " +:+ x) <$> sorted v) chord_dct.

(** ** [get_possible_chords] *)

(** [all([reset_octave(root + x) in mode for x in it])]: the list is
    built in full before [all] looks at it. *)
Definition all_in_mode (mode : list Z) (root : Z) (it : list Z) : result bool :=
  bs ← mapM (fun x => n ← reset_octave (root + x); Ok (bool_decide (n ∈ mode)))
            it;
  Ok (forallb id bs).

(** The inner [for it in chord_intervals.keys()] loop for one root. *)
Definition possible_chords_at (mode : list Z) (pitch_dct : gmap Z string)
    (chord_intervals : pydict (list Z) string) (root : Z)
  : result (list string) :=
  foldM (fun possible_chords it =>
           b ← all_in_mode mode root it;
           if b : bool then
             name ← name_chord root it pitch_dct chord_intervals;
             Ok (possible_chords ++ [name])
           else Ok possible_chords)
        [] (dict_keys chord_intervals).

(** The outer [for root in mode] loop from a given [dct], over the
    offsets [roots] still to visit; membership is always tested against
    the whole [mode]. *)
Definition chords_loop (mode : list Z) (pitch_dct : gmap Z string)
    (chord_intervals : pydict (list Z) string)
    (dct : pydict Z (list string)) (roots : list Z)
  : result (pydict Z (list string)) :=
  foldM (fun dct root =>
           root ← reset_octave root;
           possible_chords ←
             possible_chords_at mode pitch_dct chord_intervals root;
           match possible_chords with
           | [] => Ok dct
           | _ :: _ => Ok (dict_set root possible_chords dct)
           end)
        dct roots.

Definition get_possible_chords (mode : list Z) (pitch_dct : gmap Z string)
    (chord_intervals : pydict (list Z) string)
  : result (pydict Z (list string)) :=
  chords_loop mode pitch_dct chord_intervals [] mode.

(** ** [convert_seps] *)

(** Python's [sum] on a list of ints. *)
Definition sum (l : list Z) : Z := foldl Z.add 0 l.

Definition convert_seps (lst : list Z) : list Z :=
  [0] ++ ((fun i => sum (take (i + 1) lst)) <$> seq 0 (length lst)).

(** The specification's wording of the same list: the running totals of
    the separations, starting from [acc]. *)
Fixpoint cumulative_offsets (acc : Z) (seps : list Z) : list Z :=
  match seps with
  | [] => []
  | s :: seps' => (acc + s) :: cumulative_offsets (acc + s) seps'
  end.

(** ** [proc_config_info] *)

(** The offset expression of a chord definition reaches [eval] as Python
    source text.  It is represented here by its syntax tree, over the
    part of the expression language that chord definitions are written
    in: integer arithmetic, and list or tuple displays of it. *)
Inductive int_expr :=
| ILit (z : Z)
| INeg (a : int_expr)
| IAdd (a b : int_expr)
| ISub (a b : int_expr)
| IMul (a b : int_expr).

Inductive py_expr :=
| EList (es : list int_expr)
| ETuple (es : list int_expr)
| EInt (e : int_expr).

(** [eval] on an integer expression. *)
Fixpoint eval_int (e : int_expr) : Z :=
  match e with
  | ILit z => z
  | INeg a => - eval_int a
  | IAdd a b => eval_int a + eval_int b
  | ISub a b => eval_int a - eval_int b
  | IMul a b => eval_int a * eval_int b
  end.

(** [tuple(eval(v))]: an [int] is not iterable. *)
Definition tuple_eval (v : py_expr) : result (list Z) :=
  match v with
  | EList es => Ok (eval_int <$> es)
  | ETuple es => Ok (eval_int <$> es)
  | EInt _ => Raise TypeError
  end.

(** An expression written as a literal list or tuple of integers. *)
Definition is_int_literal (e : int_expr) : bool :=
  match e with
  | ILit _ => true
  | _ => false
  end.

Definition is_literal_list (v : py_expr) : bool :=
  match v with
  | EList es => forallb is_int_literal es
  | ETuple es => forallb is_int_literal es
  | EInt _ => false
  end.

(** The integers written in a literal list. *)
Definition literal_ints (v : py_expr) : list Z :=
  let written e := match e with ILit z => z | _ => 0 end in
  match v with
  | EList es => written <$> es
  | ETuple es => written <$> es
  | EInt _ => []
  end.

(** An expression whose value is a list or a tuple. *)
Definition is_display (v : py_expr) : bool :=
  match v with
  | EList _ | ETuple _ => true
  | EInt _ => false
  end.

(** The document [yaml.load] returns: its two sections, when present. *)
Record yaml_cfg := {
  chord_definitions : option (pydict string py_expr);
  mode_definitions : option (pydict string (list Z))
}.

(** The files that [open] can read, by path, each with its parsed
    content. *)
Definition file_system := gmap string yaml_cfg.

Definition section {A : Type} (name : string) (s : option A) : result A :=
  match s with
  | Some a => Ok a
  | None => Raise (KeyError (KStr name))
  end.

Definition proc_config_info (fs : file_system) (cfg_file : string)
  : result (pydict string (list Z) * pydict (list Z) string) :=
  cfg ← match fs !! cfg_file with
        | Some cfg => Ok cfg
        | None => Raise (FileNotFoundError cfg_file)
        end;
  cds ← section "chord_definitions" (chord_definitions cfg);
  intervals ← foldM (fun d '(k, v) => t ← tuple_eval v; Ok (dict_set t k d))
                    [] cds;
  mds ← section "mode_definitions" (mode_definitions cfg);
  let modes := foldl (fun d '(k, v) => dict_set k (convert_seps v) d) [] mds in
  Ok (modes, intervals).

(** ** [chord_finder] *)

(** The search up to the call of [pretty_print_dict]. *)
Definition chord_finder_search (fs : file_system) (args : list string)
  : result (pydict Z (list string)) :=
  pitch ← from_option Ok (Raise IndexError) (args !! 0%nat);
  mode ← from_option Ok (Raise IndexError) (args !! 1%nat);
  '(modes, intervals) ← proc_config_info fs "chord_config.yml";
  pitch_names ← generate_pitch_names pitch true;
  mode_lst ← getitem KStr modes mode;
  get_possible_chords mode_lst pitch_names intervals.

(** The whole command: the lines printed and how the run ended.  The
    only [print] is in [pretty_print_dict], the last call. *)
Definition chord_finder (fs : file_system) (args : list string)
  : list string * result () :=
  match chord_finder_search fs args with
  | Ok dct => (pretty_print_dict dct, Ok ())
  | Raise e => ([], Raise e)
  end.

(** ** Predicates used in the statements *)

Definition is_Ok {A : Type} (r : result A) : Prop := exists a, r = Ok a.

(** A pitch mapping as the data model has it: defined on 0..11. *)
Definition covers_octave (pitch_dct : gmap Z string) : Prop :=
  forall k : Z, 0 <= k <= 11 -> is_Some (pitch_dct !! k).

(** The chord shape [it] rooted at [root] lies in [mode]. *)
Definition fits (mode : list Z) (root : Z) (it : list Z) : Prop :=
  forall x : Z, x ∈ it -> exists n : Z, reset_octave (root + x) = Ok n /\ n ∈ mode.

Definition fitsb (mode : list Z) (root : Z) (it : list Z) : bool :=
  forallb (fun x => bool_decide ((root + x) `mod` 12 ∈ mode)) it.

(** The labels of the chord shapes that fit at [root], in table order. *)
Definition matches_at (mode : list Z) (pitch_dct : gmap Z string)
    (chord_intervals : pydict (list Z) string) (root : Z)
  : result (list string) :=
  mapM (fun it => name_chord root it pitch_dct chord_intervals)
       (filter (fun it => fitsb mode root it) (dict_keys chord_intervals)).

(** Sample data. *)
Definition c_major : list Z := convert_seps [2; 2; 1; 2; 2; 2; 1].

Definition triads : pydict (list Z) string :=
  [([4; 7], "maj"); ([3; 7], "m"); ([3; 6], "dim")]%string.

Definition c_pitches : gmap Z string := list_to_map (enumerate sharp_names).

Definition sample_cfg : yaml_cfg := {|
  chord_definitions :=
    Some [("maj", ETuple [ILit 4; ILit 7]); ("m", EList [ILit 3; ILit 7])]%string;
  mode_definitions := Some [("major", [2; 2; 1; 2; 2; 2; 1])]%string
|}.

(** A chord definition written with arithmetic, as in [x: "[1+2, 7]"]. *)
Definition arithmetic_cfg : yaml_cfg := {|
  chord_definitions :=
    Some [("x", EList [IAdd (ILit 1) (ILit 2); ILit 7])]%string;
  mode_definitions := Some []
|}.

Definition arithmetic_fs : file_system :=
  {[ "chord_config.yml"%string := arithmetic_cfg ]}.

Definition sample_fs : file_system := {[ "chord_config.yml"%string := sample_cfg ]}.

(** ** Further predicates *)

(** The order [sorted] compares strings by. *)
Definition str_le (a b : string) : Prop := String.leb a b = true.

(** The steps between consecutive offsets, [lst[i+1] - lst[i]]. *)
Fixpoint differences (offsets : list Z) : list Z :=
  match offsets with
  | a :: (b :: _) as rest => (b - a) :: differences rest
  | _ => []
  end.

(** The table [m] holds the name at position [i] of [pitch_names] under
    index [i - d] reduced to the octave, for each of the twelve
    positions: [pitch_names] rotated by [d] places. *)
Definition rotated_by (pitch_names : list string) (d : nat)
    (m : gmap Z string) : bool :=
  forallb (fun i => bool_decide
                      (m !! ((Z.of_nat i - Z.of_nat d) `mod` 12)
                       = pitch_names !! i))
          (seq 0 12).

(** The keys of a dictionary after [d[k] = ...]: a new key goes last. *)
Definition first_seen (keys : list Z) (k : Z) : list Z :=
  if decide (k ∈ keys) then keys else keys ++ [k].

(** Some chord shape of the table fits at [key]. *)
Definition some_shape_fits (mode : list Z)
    (chord_intervals : pydict (list Z) string) (key : Z) : bool :=
  existsb (fitsb mode key) (dict_keys chord_intervals).

(** Two chord names defined with the same offsets. *)
Definition alias_cfg : yaml_cfg := {|
  chord_definitions :=
    Some [("maj", ETuple [ILit 4; ILit 7]);
          ("major", EList [ILit 4; ILit 7])]%string;
  mode_definitions := Some [("whole", [2; 2])]%string
|}.

Definition alias_fs : file_system :=
  {[ "chord_config.yml"%string := alias_cfg ]}.

Definition db_pitches : gmap Z string :=
  list_to_map
    (zip (Z.of_nat <$> seq 0 12)
         ["Db"; "D"; "Eb"; "E"; "F"; "Gb"; "G"; "Ab"; "A"; "Bb"; "B"; "C"]%string).

(** * Properties *)

(** ** The error monad and the dictionaries *)

Lemma bind_Ok {A B : Type} (m : result A) (f : A -> result B) (b : B) :
  m ≫= f = Ok b <-> exists a, m = Ok a /\ f a = Ok b.
Proof.
  destruct m as [a|e]; simpl; split.
  - intros H. by exists a.
  - by intros (a' & [= ->] & H).
  - intros H. discriminate H.
  - by intros (a' & [=] & _).
Qed.

Section pydict_facts.
Context {K V : Type} `{EqDecision K}.
Implicit Types (d : list (K * V)) (k : K) (v : V).

Lemma dict_get_set_eq k v d : dict_get k (dict_set k v d) = Some v.
Proof.
  induction d as [|[k' v'] d IH]; simpl.
  - by rewrite decide_True.
  - destruct (decide (k = k')) as [->|Hne]; simpl.
    + by rewrite decide_True.
    + by rewrite decide_False.
Qed.

Lemma dict_get_set_ne k k' v d :
  k ≠ k' -> dict_get k' (dict_set k v d) = dict_get k' d.
Proof.
  intros Hne. induction d as [|[k0 v0] d IH]; simpl.
  - rewrite decide_False; [done | congruence].
  - destruct (decide (k = k0)) as [->|Hk]; simpl.
    + rewrite !decide_False; [done | congruence | congruence].
    + destruct (decide (k' = k0)); [done | apply IH].
Qed.

Lemma dict_get_is_Some k d : k ∈ dict_keys d -> is_Some (dict_get k d).
Proof.
  unfold dict_keys. induction d as [|[k' v'] d IH]; simpl.
  - intros H. by apply elem_of_nil in H.
  - intros H. destruct (decide (k = k')); [eauto |].
    apply IH. apply elem_of_cons in H as [?|?]; done.
Qed.

Lemma dict_get_Some_keys k v d : dict_get k d = Some v -> k ∈ dict_keys d.
Proof.
  unfold dict_keys. induction d as [|[k' v'] d IH]; simpl; [done |].
  destruct (decide (k = k')) as [->|Hne]; intros H.
  - apply elem_of_cons. by left.
  - apply elem_of_cons. right. by apply IH.
Qed.

End pydict_facts.

(** ** [reset_octave] *)

Lemma while_negative_eq (num : Z) :
  while_negative num = Ok (if decide (num < 0) then num `mod` 12 else num).
Proof.
  funelim (while_negative num).
  - by rewrite decide_False.
  - lia.
  - match goal with IH : while_negative _ = Ok _ |- _ => rewrite IH end.
    rewrite (decide_True (P := num < 0)) by done.
    f_equal. destruct (decide (num + 12 < 0)).
    + replace (num + 12) with (num + 1 * 12) by lia.
      by rewrite Z.mod_add.
    + symmetry. replace num with ((num + 12) + (-1) * 12) at 1 by lia.
      rewrite Z.mod_add by lia. apply Z.mod_small. lia.
Qed.

Lemma while_above_eq (num : Z) :
  0 <= num -> while_above num = Ok (num `mod` 12).
Proof.
  funelim (while_above num); intros Hpos.
  - f_equal. symmetry. apply Z.mod_small. lia.
  - lia.
  - match goal with IH : _ -> while_above _ = Ok _ |- _ => rewrite IH by lia end.
    f_equal. replace num with ((num - 12) + 1 * 12) at 2 by lia.
    by rewrite Z.mod_add.
Qed.

Lemma reset_octave_eq (num : Z) : reset_octave num = Ok (num `mod` 12).
Proof.
  unfold reset_octave. rewrite while_negative_eq. simpl.
  destruct (decide (num < 0)).
  - rewrite while_above_eq by (apply Z.mod_pos_bound; lia).
    by rewrite Z.mod_mod.
  - apply while_above_eq. lia.
Qed.

Lemma mod12_range (n : Z) : 0 <= n `mod` 12 <= 11.
Proof. pose proof (Z.mod_pos_bound n 12). lia. Qed.

Lemma while_fuel_negative (fuel : nat) (num : Z) :
  octave_distance num <= Z.of_nat fuel ->
  while_fuel fuel (fun n => bool_decide (n < 0)) negative_body num
  = Some (Ok (if decide (num < 0) then num `mod` 12 else num)).
Proof.
  revert num. induction fuel as [|fuel IH]; intros num Hd.
  - unfold octave_distance in Hd. simpl.
    destruct (decide (num < 0)) as [Hn|Hn].
    + lia.
    + by rewrite bool_decide_eq_false_2.
  - simpl. destruct (decide (num < 0)) as [Hn|Hn].
    + rewrite bool_decide_eq_true_2 by done.
      unfold negative_body. rewrite bool_decide_eq_false_2 by lia.
      rewrite IH.
      * do 2 f_equal. destruct (decide (num + 12 < 0)).
        -- replace (num + 12) with (num + 1 * 12) by lia.
           by rewrite Z.mod_add.
        -- symmetry. replace num with ((num + 12) + (-1) * 12) at 1 by lia.
           rewrite Z.mod_add by lia. apply Z.mod_small. lia.
      * unfold octave_distance in *.
        rewrite (decide_True (P := num < 0)) in Hd by done.
        repeat case_decide; lia.
    + by rewrite bool_decide_eq_false_2.
Qed.

Lemma while_fuel_above (fuel : nat) (num : Z) :
  0 <= num ->
  octave_distance num <= Z.of_nat fuel ->
  while_fuel fuel (fun n => bool_decide (n > 11)) above_body num
  = Some (Ok (num `mod` 12)).
Proof.
  revert num. induction fuel as [|fuel IH]; intros num Hpos Hd.
  - unfold octave_distance in Hd. simpl.
    rewrite (decide_False (P := num < 0)) in Hd by lia.
    destruct (decide (num > 11)) as [Hn|Hn]; [lia |].
    rewrite bool_decide_eq_false_2 by done.
    do 2 f_equal. symmetry. apply Z.mod_small. lia.
  - simpl. destruct (decide (num > 11)) as [Hn|Hn].
    + rewrite bool_decide_eq_true_2 by done.
      unfold above_body. rewrite bool_decide_eq_false_2 by lia.
      rewrite IH.
      * do 2 f_equal. replace num with ((num - 12) + 1 * 12) at 2 by lia.
        by rewrite Z.mod_add.
      * lia.
      * unfold octave_distance in *. repeat case_decide; lia.
    + rewrite bool_decide_eq_false_2 by done.
      do 2 f_equal. symmetry. apply Z.mod_small. lia.
Qed.

Lemma reset_octave_fuel_enough (fuel : nat) (num : Z) :
  octave_distance num <= Z.of_nat fuel ->
  reset_octave_fuel fuel num = Some (Ok (num `mod` 12)).
Proof.
  intros Hd. unfold reset_octave_fuel.
  rewrite while_fuel_negative by done.
  destruct (decide (num < 0)) as [Hn|Hn].
  - rewrite while_fuel_above.
    + by rewrite Z.mod_mod.
    + apply mod12_range.
    + pose proof (mod12_range num). unfold octave_distance.
      repeat case_decide; lia.
  - apply while_fuel_above; [lia | done].
Qed.

(** C3.  For every integer [n], [reset_octave n] returns a value in the
    closed range 0..11 that differs from [n] by a multiple of 12; and
    [reset_octave 13 = 1], [reset_octave (-1) = 11], [reset_octave 0 = 0]. *)
Theorem reset_octave_range_congruent :
  (forall n : Z, exists v : Z,
      reset_octave n = Ok v /\ 0 <= v <= 11 /\ (12 | v - n)) /\
  reset_octave 13 = Ok 1 /\
  reset_octave (-1) = Ok 11 /\
  reset_octave 0 = Ok 0.
Proof.
  split; [| by vm_compute].
  intros n. exists (n `mod` 12). split; [apply reset_octave_eq |].
  split; [apply mod12_range |].
  exists (- (n `div` 12)). pose proof (Z.div_mod n 12). lia.
Qed.

(** C9.  [reset_octave] terminates on every integer: an iteration of the
    first loop (entered when [num < 0]) and an iteration of the second
    (entered when [num > 11]) each raise nothing and bring the value
    strictly closer to the range 0..11, so a number of steps bounded by
    the distance of [num] from that range ends both loops, with a result
    in the range, which is the result of [reset_octave]. *)
Theorem reset_octave_terminates (num : Z) :
  (num < 0 ->
   negative_body num = Ok (num + 12) /\
   0 <= octave_distance (num + 12) < octave_distance num) /\
  (num > 11 ->
   above_body num = Ok (num - 12) /\
   0 <= octave_distance (num - 12) < octave_distance num) /\
  exists v : Z,
    0 <= v <= 11 /\
    reset_octave num = Ok v /\
    forall fuel : nat,
      octave_distance num <= Z.of_nat fuel ->
      reset_octave_fuel fuel num = Some (Ok v).
Proof.
  split; [| split].
  - intros Hn. unfold negative_body, octave_distance.
    rewrite bool_decide_eq_false_2 by lia. repeat case_decide; split; (done || lia).
  - intros Hn. unfold above_body, octave_distance.
    rewrite bool_decide_eq_false_2 by lia. repeat case_decide; split; (done || lia).
  - exists (num `mod` 12). split; [apply mod12_range |].
    split; [apply reset_octave_eq |].
    intros fuel Hd. by apply reset_octave_fuel_enough.
Qed.

Lemma reset_octave_terminates_witness :
  (-25 < 0 /\ 25 > 11 /\ octave_distance (-25) <= Z.of_nat 25) /\
  negative_body (-25) = Ok (-13) /\
  above_body 25 = Ok 13 /\
  reset_octave_fuel 25 (-25) = Some (reset_octave (-25)).
Proof.
  split; [vm_compute; repeat split; congruence |].
  split; [apply (reset_octave_terminates (-25)); lia |].
  split; [apply (reset_octave_terminates 25); lia |].
  destruct (reset_octave_terminates (-25)) as (_ & _ & v & _ & Hv & Hfuel).
  rewrite Hv. apply Hfuel. vm_compute. congruence.
Defined.

(** ** [convert_seps] *)

Lemma foldl_add_foldr (a : Z) (l : list Z) :
  foldl Z.add a l = a + foldr Z.add 0 l.
Proof.
  revert a. induction l as [|x l IH]; intros a; simpl; [lia |].
  rewrite IH. lia.
Qed.

Lemma sum_foldr (l : list Z) : sum l = foldr Z.add 0 l.
Proof. unfold sum. rewrite foldl_add_foldr. lia. Qed.

Lemma cumulative_offsets_seq (acc : Z) (seps : list Z) :
  cumulative_offsets acc seps
  = (fun i => acc + sum (take (i + 1) seps)) <$> seq 0 (length seps).
Proof.
  revert acc. induction seps as [|s seps IH]; intros acc; [done |].
  cbn [cumulative_offsets length seq fmap list_fmap].
  f_equal.
  rewrite IH, <- fmap_S_seq, <- list_fmap_compose.
  apply list_fmap_ext. intros i j _. simpl.
  rewrite !sum_foldr. simpl. lia.
Qed.

(** C5.  [convert_seps] returns 0 followed by the running totals of the
    separations: its first element is 0, the element at position [i + 1]
    is the total of the first [i + 1] separations, and its length is the
    length of the input plus one. *)
Theorem convert_seps_prefix_sums (lst : list Z) :
  convert_seps lst = 0 :: cumulative_offsets 0 lst /\
  convert_seps lst !! 0%nat = Some 0 /\
  (forall i : nat,
      (i < length lst)%nat ->
      convert_seps lst !! S i = Some (foldr Z.add 0 (take (S i) lst))) /\
  length (convert_seps lst) = S (length lst).
Proof.
  split; [| split; [done | split]].
  - unfold convert_seps. simpl. f_equal.
    rewrite cumulative_offsets_seq. by apply list_fmap_ext.
  - intros i Hi. unfold convert_seps. simpl.
    rewrite list_lookup_fmap, lookup_seq_lt by done. simpl.
    by rewrite sum_foldr, Nat.add_1_r.
  - unfold convert_seps. simpl. by rewrite length_fmap, length_seq.
Qed.

Lemma convert_seps_prefix_sums_witness :
  (2 < length [1; 1; 1; 1])%nat /\
  convert_seps [1; 1; 1; 1] !! 3%nat = Some 3 /\
  convert_seps [1; 1; 1; 1] = [0; 1; 2; 3; 4].
Proof.
  split; [simpl; lia |].
  split; [| reflexivity].
  destruct (convert_seps_prefix_sums [1; 1; 1; 1]) as (_ & _ & Hnth & _).
  apply (Hnth 2%nat). simpl. lia.
Defined.

(** ** [generate_pitch_names] *)

Lemma NoDup_fmap_elem {A B : Type} (f : A -> B) (l : list A) (x y : A) :
  NoDup (f <$> l) -> x ∈ l -> y ∈ l -> f x = f y -> x = y.
Proof.
  induction l as [|a l IH]; simpl; intros Hnd Hx Hy Hf.
  - by apply elem_of_nil in Hx.
  - apply NoDup_cons in Hnd as [Hna Hnd].
    apply elem_of_cons in Hx as [->|Hx]; apply elem_of_cons in Hy as [->|Hy].
    + done.
    + exfalso. apply Hna. rewrite Hf. by apply list_elem_of_fmap_2.
    + exfalso. apply Hna. rewrite <- Hf. by apply list_elem_of_fmap_2.
    + by apply IH.
Qed.

(** Every valid starting pitch yields a table that passes the check:
    the two lists have twelve names each, and the table is computed for
    each of them. *)
Lemma pitch_table_ok (b : bool) (starting_pitch : string) :
  starting_pitch ∈ pitch_names_for b ->
  match pitch_table (pitch_names_for b) starting_pitch with
  | Ok m => pitch_mapping_ok (pitch_names_for b) starting_pitch m
  | Raise _ => false
  end = true.
Proof.
  intros Hin. destruct b; vm_compute in Hin.
  all: repeat (apply elem_of_cons in Hin as [->|Hin]);
    try (by apply elem_of_nil in Hin).
  all: vm_compute; reflexivity.
Qed.

Lemma pitch_mapping_ok_sound (pitch_names : list string)
    (starting_pitch : string) (m : gmap Z string) :
  pitch_mapping_ok pitch_names starting_pitch m = true ->
  size m = 12%nat /\
  (forall k : Z, is_Some (m !! k) <-> 0 <= k <= 11) /\
  (forall (i j : Z) (name : string),
      m !! i = Some name -> m !! j = Some name -> i = j) /\
  (forall name : string,
      (exists k : Z, m !! k = Some name) <-> name ∈ pitch_names) /\
  m !! 0 = Some starting_pitch.
Proof.
  unfold pitch_mapping_ok. rewrite !andb_true_iff, !bool_decide_eq_true.
  intros ((((Hsize & Hdom) & Hnd) & Hnames) & Hzero).
  split; [done |]. split; [| split; [| split; [| done]]].
  - intros k. rewrite <- elem_of_dom, Hdom, elem_of_list_to_set.
    rewrite list_elem_of_fmap. split.
    + intros (n & -> & Hn). apply elem_of_seq in Hn. lia.
    + intros Hk. exists (Z.to_nat k). split; [lia |].
      apply elem_of_seq. lia.
  - intros i j name Hi Hj.
    apply elem_of_map_to_list in Hi, Hj.
    by pose proof (NoDup_fmap_elem snd _ _ _ Hnd Hi Hj eq_refl) as [= ->].
  - intros name.
    rewrite <- (elem_of_list_to_set (C := gset string) name pitch_names).
    rewrite <- Hnames, elem_of_list_to_set, list_elem_of_fmap. split.
    + intros (k & Hk). exists (k, name). split; [done |].
      by apply elem_of_map_to_list.
    + intros ([k name'] & -> & Hk). exists k.
      by apply elem_of_map_to_list.
Qed.

(** C4.  For every starting pitch that is one of the twelve names of the
    spelling in force, and either spelling preference,
    [generate_pitch_names] returns a mapping with exactly twelve entries,
    defined exactly on the indices 0..11, in which no name occurs under
    two indices, whose names are the twelve of that spelling, and in
    which index 0 carries the starting pitch. *)
Theorem generate_pitch_names_twelve (starting_pitch : string) (sharped : bool) :
  starting_pitch ∈ pitch_names_for (resolved_sharped starting_pitch sharped) ->
  exists m : gmap Z string,
    generate_pitch_names starting_pitch sharped = Ok m /\
    size m = 12%nat /\
    (forall k : Z, is_Some (m !! k) <-> 0 <= k <= 11) /\
    (forall (i j : Z) (name : string),
        m !! i = Some name -> m !! j = Some name -> i = j) /\
    (forall name : string,
        (exists k : Z, m !! k = Some name) <->
        name ∈ pitch_names_for (resolved_sharped starting_pitch sharped)) /\
    m !! 0 = Some starting_pitch.
Proof.
  intros Hin. unfold generate_pitch_names. simpl.
  pose proof (pitch_table_ok _ _ Hin) as Hok.
  destruct (pitch_table _ starting_pitch) as [m|e]; [| discriminate Hok].
  exists m. split; [done |]. by apply pitch_mapping_ok_sound.
Qed.

Lemma generate_pitch_names_twelve_witness :
  "Eb"%string ∈ pitch_names_for (resolved_sharped "Eb" true) /\
  exists m : gmap Z string,
    generate_pitch_names "Eb" true = Ok m /\ m !! 0 = Some "Eb"%string.
Proof.
  assert ("Eb"%string ∈ pitch_names_for (resolved_sharped "Eb" true)) as Hin.
  { vm_compute. do 3 apply list_elem_of_further. apply list_elem_of_here. }
  split; [exact Hin |].
  destruct (generate_pitch_names_twelve "Eb" true Hin) as (m & Hm & _ & _ & _ & _ & H0).
  by exists m.
Defined.

(** C7.  A starting pitch whose name contains the flat marker gets the
    flat spelling whatever the preference: the result for
    [sharped = True] is the result for [sharped = False].  And
    [generate_pitch_names 'D' False] maps index 1 to ['Eb']. *)
Theorem flat_marker_forces_flat_spelling :
  (forall starting_pitch : string,
      str_contains "b" starting_pitch = true ->
      resolved_sharped starting_pitch true = false /\
      generate_pitch_names starting_pitch true
      = generate_pitch_names starting_pitch false) /\
  exists m : gmap Z string,
    generate_pitch_names "D" false = Ok m /\ m !! 1 = Some "Eb"%string.
Proof.
  split.
  - intros starting_pitch Hb. unfold generate_pitch_names, resolved_sharped.
    by rewrite Hb.
  - assert (match generate_pitch_names "D" false with
            | Ok m => m !! 1
            | Raise _ => None
            end = Some "Eb"%string) as H by (vm_compute; reflexivity).
    destruct (generate_pitch_names "D" false) as [m|e]; [| discriminate H].
    by exists m.
Qed.

Lemma flat_marker_forces_flat_spelling_witness :
  str_contains "b" "Bb" = true /\
  generate_pitch_names "Bb" true = generate_pitch_names "Bb" false.
Proof.
  split; [reflexivity |].
  apply (proj1 flat_marker_forces_flat_spelling "Bb"%string). reflexivity.
Defined.

(** ** [get_possible_chords] *)

Lemma fitsb_fits (mode : list Z) (root : Z) (it : list Z) :
  fitsb mode root it = true <-> fits mode root it.
Proof.
  unfold fitsb, fits. rewrite forallb_forall. split.
  - intros H x Hx. exists ((root + x) `mod` 12).
    split; [apply reset_octave_eq |].
    apply list_elem_of_In, H, bool_decide_eq_true in Hx. done.
  - intros H x Hx. apply list_elem_of_In, H in Hx as (n & Hn & Hin).
    rewrite reset_octave_eq in Hn. injection Hn as <-.
    by apply bool_decide_eq_true.
Qed.

Lemma all_in_mode_eq (mode : list Z) (root : Z) (it : list Z) :
  all_in_mode mode root it = Ok (fitsb mode root it).
Proof.
  unfold all_in_mode, fitsb.
  assert (mapM (fun x => n ← reset_octave (root + x);
                         Ok (bool_decide (n ∈ mode))) it
          = Ok ((fun x => bool_decide ((root + x) `mod` 12 ∈ mode)) <$> it))
    as ->.
  { induction it as [|x it IH]; [done |].
    simpl. rewrite reset_octave_eq. simpl. by rewrite IH. }
  simpl. f_equal. generalize (fun x => bool_decide ((root + x) `mod` 12 ∈ mode)).
  intros g. induction it as [|x it IH]; [done |].
  simpl. f_equal. apply IH.
Qed.

(** The inner loop, from any list of labels already found and over any
    remaining keys, appends the labels of the keys that fit. *)
Lemma possible_chords_loop_eq (mode : list Z) (pitch_dct : gmap Z string)
    (chord_intervals : pydict (list Z) string) (root : Z)
    (ks : list (list Z)) (acc : list string) :
  foldM (fun possible_chords it =>
           b ← all_in_mode mode root it;
           if b : bool then
             name ← name_chord root it pitch_dct chord_intervals;
             Ok (possible_chords ++ [name])
           else Ok possible_chords)
        acc ks
  = (ls ← mapM (fun it => name_chord root it pitch_dct chord_intervals)
               (filter (fun it => fitsb mode root it) ks);
     Ok (acc ++ ls)).
Proof.
  revert acc. induction ks as [|k ks IH]; intros acc.
  - simpl. by rewrite app_nil_r.
  - cbn [foldM]. rewrite all_in_mode_eq, filter_cons. simpl.
    destruct (fitsb mode root k) eqn:Hk.
    + rewrite decide_True by done. simpl.
      destruct (name_chord root k pitch_dct chord_intervals) as [name|e];
        [| done].
      simpl. rewrite IH.
      destruct (mapM _ _) as [ls|e]; [| done].
      simpl. by rewrite <- app_assoc.
    + rewrite decide_False by (by intros []). apply IH.
Qed.

Lemma possible_chords_at_eq (mode : list Z) (pitch_dct : gmap Z string)
    (chord_intervals : pydict (list Z) string) (root : Z) :
  possible_chords_at mode pitch_dct chord_intervals root
  = matches_at mode pitch_dct chord_intervals root.
Proof.
  unfold possible_chords_at, matches_at. rewrite possible_chords_loop_eq.
  by destruct (mapM _ _).
Qed.

Lemma mapM_Ok_Forall2 {A B : Type} (f : A -> result B) (l : list A)
    (bs : list B) :
  mapM f l = Ok bs <-> Forall2 (fun a b => f a = Ok b) l bs.
Proof.
  revert bs. induction l as [|a l IH]; intros bs; simpl.
  - split.
    + intros [= <-]. constructor.
    + intros H. by inversion H.
  - split.
    + intros H. apply bind_Ok in H as (b & Hb & H).
      apply bind_Ok in H as (bs' & Hbs & [= <-]).
      constructor; [done | by apply IH].
    + intros H. inversion H as [|? b ? bs' Hb Hbs]; subst.
      rewrite Hb. simpl. apply IH in Hbs. by rewrite Hbs.
Qed.

Lemma mapM_total {A B : Type} (f : A -> result B) (l : list A) :
  (forall a, a ∈ l -> exists b, f a = Ok b) -> exists bs, mapM f l = Ok bs.
Proof.
  induction l as [|a l IH]; intros H; simpl; [by eexists |].
  destruct (H a) as (b & ->); [apply list_elem_of_here |].
  destruct IH as (bs & ->).
  { intros a' Ha'. apply H. by apply list_elem_of_further. }
  simpl. by eexists.
Qed.

Lemma matches_at_total (mode : list Z) (pitch_dct : gmap Z string)
    (chord_intervals : pydict (list Z) string) (root : Z) :
  is_Some (pitch_dct !! root) ->
  exists labels, matches_at mode pitch_dct chord_intervals root = Ok labels.
Proof.
  intros [p Hp]. apply mapM_total. intros it Hit.
  apply list_elem_of_filter in Hit as [_ Hit].
  apply dict_get_is_Some in Hit as [c Hc].
  unfold name_chord, getitem_map, getitem. rewrite Hp, Hc. simpl. by eexists.
Qed.

(** What the outer loop leaves under each key: a root that was visited
    and has matches carries them; any other key is as it was. *)
Lemma chords_loop_lookup (mode : list Z) (pitch_dct : gmap Z string)
    (chord_intervals : pydict (list Z) string) (roots : list Z)
    (dct0 dct : pydict Z (list string)) (key : Z) :
  chords_loop mode pitch_dct chord_intervals dct0 roots = Ok dct ->
  dict_get key dct
  = if bool_decide (key ∈ (fun r => r `mod` 12) <$> roots) then
      match matches_at mode pitch_dct chord_intervals key with
      | Ok (l :: ls) => Some (l :: ls)
      | _ => dict_get key dct0
      end
    else dict_get key dct0.
Proof.
  unfold chords_loop. revert dct0.
  induction roots as [|r roots IH]; intros dct0 Hloop.
  - injection Hloop as <-. done.
  - cbn [foldM] in Hloop. rewrite reset_octave_eq in Hloop. simpl in Hloop.
    rewrite possible_chords_at_eq in Hloop.
    destruct (matches_at mode pitch_dct chord_intervals (r `mod` 12))
      as [labels|e] eqn:Hr; [| discriminate Hloop].
    rewrite fmap_cons. simpl in Hloop. destruct labels as [|l ls].
    + apply IH in Hloop. rewrite Hloop.
      destruct (decide (key = r `mod` 12)) as [->|Hne].
      * rewrite (bool_decide_eq_true_2 (_ ∈ _ :: _)) by apply list_elem_of_here.
        rewrite Hr. by case_bool_decide.
      * destruct (decide (key ∈ (fun r0 => r0 `mod` 12) <$> roots)) as [Hin|Hin].
        -- rewrite !bool_decide_eq_true_2;
             [done | by apply list_elem_of_further | done].
        -- rewrite !bool_decide_eq_false_2; [done | | done].
           intros [?|?]%elem_of_cons; done.
    + apply IH in Hloop. rewrite Hloop.
      destruct (decide (key = r `mod` 12)) as [->|Hne].
      * rewrite (bool_decide_eq_true_2 (_ ∈ _ :: _)) by apply list_elem_of_here.
        rewrite Hr, dict_get_set_eq. by case_bool_decide.
      * rewrite dict_get_set_ne by done.
        destruct (decide (key ∈ (fun r0 => r0 `mod` 12) <$> roots)) as [Hin|Hin].
        -- rewrite !bool_decide_eq_true_2;
             [done | by apply list_elem_of_further | done].
        -- rewrite !bool_decide_eq_false_2; [done | | done].
           intros [?|?]%elem_of_cons; done.
Qed.

Lemma chords_loop_matches_ok (mode : list Z) (pitch_dct : gmap Z string)
    (chord_intervals : pydict (list Z) string) (roots : list Z)
    (dct0 dct : pydict Z (list string)) (r : Z) :
  chords_loop mode pitch_dct chord_intervals dct0 roots = Ok dct ->
  r ∈ roots ->
  exists labels,
    matches_at mode pitch_dct chord_intervals (r `mod` 12) = Ok labels.
Proof.
  unfold chords_loop. revert dct0.
  induction roots as [|r' roots IH]; intros dct0 Hloop Hin.
  - by apply elem_of_nil in Hin.
  - cbn [foldM] in Hloop. rewrite reset_octave_eq in Hloop. simpl in Hloop.
    rewrite possible_chords_at_eq in Hloop.
    destruct (matches_at mode pitch_dct chord_intervals (r' `mod` 12))
      as [labels|e] eqn:Hr; [| discriminate Hloop].
    apply elem_of_cons in Hin as [->|Hin]; [by eexists |].
    simpl in Hloop. destruct labels; eapply IH; eauto.
Qed.

Lemma chords_loop_total (mode : list Z) (pitch_dct : gmap Z string)
    (chord_intervals : pydict (list Z) string) (roots : list Z)
    (dct0 : pydict Z (list string)) :
  covers_octave pitch_dct ->
  exists dct, chords_loop mode pitch_dct chord_intervals dct0 roots = Ok dct.
Proof.
  intros Hcov. unfold chords_loop. revert dct0.
  induction roots as [|r roots IH]; intros dct0; [by eexists |].
  cbn [foldM]. rewrite reset_octave_eq. simpl.
  rewrite possible_chords_at_eq.
  destruct (matches_at_total mode pitch_dct chord_intervals (r `mod` 12))
    as (labels & ->); [apply Hcov, mod12_range |].
  simpl. destruct labels; apply IH.
Qed.

Lemma chords_loop_nonempty (mode : list Z) (pitch_dct : gmap Z string)
    (chord_intervals : pydict (list Z) string) (roots : list Z)
    (dct0 dct : pydict Z (list string)) :
  chords_loop mode pitch_dct chord_intervals dct0 roots = Ok dct ->
  Forall (fun kv => kv.2 ≠ []) dct0 ->
  Forall (fun kv => kv.2 ≠ []) dct.
Proof.
  unfold chords_loop. revert dct0.
  induction roots as [|r roots IH]; intros dct0 Hloop Hinv.
  - by injection Hloop as <-.
  - cbn [foldM] in Hloop. apply bind_Ok in Hloop as (dct1 & Hbody & Hloop).
    apply (IH dct1); [done |].
    apply bind_Ok in Hbody as (root & _ & Hbody).
    apply bind_Ok in Hbody as (labels & _ & Hbody).
    destruct labels as [|l ls]; injection Hbody as <-; [done |].
    clear -Hinv. induction dct0 as [|[k v] dct0 IHd]; simpl.
    + by repeat constructor.
    + apply Forall_cons in Hinv as [Hv Hinv].
      case_decide; constructor; auto.
Qed.

Lemma c_pitches_covers_octave : covers_octave c_pitches.
Proof.
  intros k Hk.
  assert (k ∈ Z.of_nat <$> seq 0 12) as Hin.
  { apply list_elem_of_fmap. exists (Z.to_nat k). split; [lia |].
    apply elem_of_seq. lia. }
  vm_compute in Hin.
  repeat (apply elem_of_cons in Hin as [->|Hin]); try (by vm_compute; eauto).
  by apply elem_of_nil in Hin.
Qed.

(** C1.  For a mode, a pitch mapping, a chord table and an offset [r] of
    the mode: [get_possible_chords] returns a dictionary when the pitch
    mapping is defined on 0..11 (it raises [KeyError] only for a missing
    pitch name), and in the dictionary it returns the chord shapes
    recorded under key [reset_octave r] are exactly the keys [t] of the
    table such that, for every [x] in [t],
    [reset_octave (reset_octave r + x)] is a member of the mode list as
    given (its offsets unreduced); each is recorded by its label, and the
    key is absent when there is none. *)
Theorem get_possible_chords_records (mode : list Z)
    (pitch_dct : gmap Z string) (chord_intervals : pydict (list Z) string)
    (r : Z) :
  r ∈ mode ->
  (covers_octave pitch_dct ->
   is_Ok (get_possible_chords mode pitch_dct chord_intervals)) /\
  forall dct : pydict Z (list string),
    get_possible_chords mode pitch_dct chord_intervals = Ok dct ->
    exists (root : Z) (recorded : list (list Z)) (labels : list string),
      reset_octave r = Ok root /\
      (forall t : list Z,
          t ∈ recorded <->
          t ∈ dict_keys chord_intervals /\ fits mode root t) /\
      Forall2 (fun t label =>
                 name_chord root t pitch_dct chord_intervals = Ok label)
              recorded labels /\
      dict_get root dct = match recorded with
                          | [] => None
                          | _ :: _ => Some labels
                          end.
Proof.
  intros Hr. split; [by apply chords_loop_total |].
  intros dct Hdct.
  destruct (chords_loop_matches_ok _ _ _ _ _ _ _ Hdct Hr) as (labels & Hl).
  exists (r `mod` 12),
    (filter (fun it => fitsb mode (r `mod` 12) it) (dict_keys chord_intervals)),
    labels.
  split; [apply reset_octave_eq |].
  assert (Forall2 (fun t label =>
            name_chord (r `mod` 12) t pitch_dct chord_intervals = Ok label)
            (filter (fun it => fitsb mode (r `mod` 12) it)
                    (dict_keys chord_intervals)) labels) as HF
    by by apply mapM_Ok_Forall2.
  split; [| split; [done |]].
  - intros t. rewrite list_elem_of_filter, Is_true_true, fitsb_fits. tauto.
  - rewrite (chords_loop_lookup _ _ _ _ _ _ (r `mod` 12) Hdct).
    rewrite bool_decide_eq_true_2
      by (by apply (list_elem_of_fmap_2 (fun r0 => r0 `mod` 12))).
    rewrite Hl. by destruct HF.
Qed.

Lemma get_possible_chords_records_witness :
  12 ∈ c_major /\ covers_octave c_pitches /\
  exists (dct : pydict Z (list string)) (labels : list string),
    get_possible_chords c_major c_pitches triads = Ok dct /\
    dict_get 0 dct = Some labels.
Proof.
  assert (12 ∈ c_major) as Hin.
  { apply (bool_decide_unpack _). vm_compute. exact I. }
  split; [exact Hin |]. split; [apply c_pitches_covers_octave |].
  destruct (get_possible_chords_records c_major c_pitches triads 12 Hin)
    as (Htotal & Hrec).
  destruct (Htotal c_pitches_covers_octave) as (dct & Hdct).
  destruct (Hrec dct Hdct) as (root & recorded & labels & Hroot & Hiff & _ & Hget).
  exists dct, labels. split; [exact Hdct |].
  vm_compute in Hroot. injection Hroot as <-.
  destruct recorded as [|t recorded]; [| exact Hget].
  exfalso. apply (elem_of_nil [4; 7]). apply Hiff.
  split; [apply list_elem_of_here |].
  apply fitsb_fits. reflexivity.
Defined.

(** Membership is in the mode list as given: the pitch classes 4 and 7
    occur in the mode [0; 16; 19] only an octave up, so the major triad
    is not found at root 0 there, while it is in [0; 4; 7]. *)
Example unreduced_membership :
  get_possible_chords [0; 16; 19] c_pitches triads = Ok [] /\
  get_possible_chords [0; 4; 7] c_pitches triads = Ok [(0, ["C maj"%string])].
Proof. split; reflexivity. Qed.

(** C6.  Every key of the dictionary that [get_possible_chords] returns
    carries a non-empty list of labels, and an offset of the mode at
    which no chord shape of the table fits is not a key of it. *)
Theorem get_possible_chords_no_empty_entry (mode : list Z)
    (pitch_dct : gmap Z string) (chord_intervals : pydict (list Z) string)
    (dct : pydict Z (list string)) :
  get_possible_chords mode pitch_dct chord_intervals = Ok dct ->
  Forall (fun kv => kv.2 ≠ []) dct /\
  (forall (key : Z) (labels : list string),
      dict_get key dct = Some labels -> labels ≠ []) /\
  (forall r : Z,
      r ∈ mode ->
      (forall t, t ∈ dict_keys chord_intervals -> ¬ fits mode (r `mod` 12) t) ->
      dict_get (r `mod` 12) dct = None).
Proof.
  intros Hdct. split; [| split].
  - by apply (chords_loop_nonempty _ _ _ _ _ _ Hdct).
  - intros key labels.
    rewrite (chords_loop_lookup _ _ _ _ _ _ key Hdct). simpl.
    case_bool_decide; [| done].
    destruct (matches_at _ _ _ _) as [[|l ls]|e]; [done | | done].
    by intros [= <-].
  - intros r Hr Hnone.
    rewrite (chords_loop_lookup _ _ _ _ _ _ (r `mod` 12) Hdct). simpl.
    case_bool_decide; [| done].
    unfold matches_at.
    destruct (filter (fun it => fitsb mode (r `mod` 12) it)
                     (dict_keys chord_intervals)) as [|t ts] eqn:Hf; [done |].
    exfalso.
    assert (t ∈ filter (fun it => fitsb mode (r `mod` 12) it)
                       (dict_keys chord_intervals)) as Hin
      by (rewrite Hf; apply list_elem_of_here).
    apply list_elem_of_filter in Hin as [Hfit Ht].
    apply (Hnone t Ht). by apply fitsb_fits, Is_true_true.
Qed.

Lemma get_possible_chords_no_empty_entry_witness :
  get_possible_chords [0; 2; 4; 7] c_pitches triads
  = Ok [(0, ["C maj"%string])] /\
  Forall (fun kv : Z * list string => kv.2 ≠ []) [(0, ["C maj"%string])].
Proof.
  split; [reflexivity |].
  apply (get_possible_chords_no_empty_entry [0; 2; 4; 7] c_pitches triads).
  reflexivity.
Defined.

(** C10.  When the empty tuple is a key of the chord table, it fits at
    every root, the condition on its offsets being vacuous: for every
    offset [r] of the mode, [r] reduced modulo 12 is a key of the
    dictionary [get_possible_chords] returns, and the list under it holds
    the label of the empty-tuple chord.  The call returns a dictionary
    when the pitch mapping is defined on 0..11. *)
Theorem empty_tuple_matches_at_every_root (mode : list Z)
    (pitch_dct : gmap Z string) (chord_intervals : pydict (list Z) string)
    (r : Z) :
  [] ∈ dict_keys chord_intervals ->
  r ∈ mode ->
  fits mode (r `mod` 12) [] /\
  (covers_octave pitch_dct ->
   is_Ok (get_possible_chords mode pitch_dct chord_intervals)) /\
  forall dct : pydict Z (list string),
    get_possible_chords mode pitch_dct chord_intervals = Ok dct ->
    exists (labels : list string) (label : string),
      dict_get (r `mod` 12) dct = Some labels /\
      name_chord (r `mod` 12) [] pitch_dct chord_intervals = Ok label /\
      label ∈ labels.
Proof.
  intros Hempty Hr.
  split; [by intros x Hx%elem_of_nil |].
  split; [by apply chords_loop_total |].
  intros dct Hdct.
  destruct (chords_loop_matches_ok _ _ _ _ _ _ _ Hdct Hr) as (labels & Hl).
  pose proof Hl as HF. apply mapM_Ok_Forall2 in HF.
  assert ([] ∈ filter (fun it => fitsb mode (r `mod` 12) it)
                      (dict_keys chord_intervals)) as Hin
    by (by apply list_elem_of_filter).
  apply list_elem_of_lookup in Hin as (i & Hi).
  destruct (Forall2_lookup_l _ _ _ _ _ HF Hi) as (label & Hlabel & Hname).
  exists labels, label.
  split; [| split; [done | by eapply list_elem_of_lookup_2]].
  rewrite (chords_loop_lookup _ _ _ _ _ _ (r `mod` 12) Hdct).
  rewrite bool_decide_eq_true_2
    by (by apply (list_elem_of_fmap_2 (fun r0 => r0 `mod` 12))).
  rewrite Hl. destruct labels; [| done].
  by rewrite lookup_nil in Hlabel.
Qed.

Lemma empty_tuple_matches_at_every_root_witness :
  [] ∈ dict_keys [([], "note"%string); ([4; 7], "maj"%string)] /\
  14 ∈ [0; 14] /\
  covers_octave c_pitches /\
  exists (dct : pydict Z (list string)) (labels : list string),
    get_possible_chords [0; 14] c_pitches
      [([], "note"%string); ([4; 7], "maj"%string)] = Ok dct /\
    dict_get 2 dct = Some labels /\
    "D note"%string ∈ labels.
Proof.
  assert ([] ∈ dict_keys [([], "note"%string); ([4; 7], "maj"%string)])
    as Hempty by apply list_elem_of_here.
  assert (14 ∈ [0; 14]) as Hin
    by (apply list_elem_of_further, list_elem_of_here).
  split; [exact Hempty |]. split; [exact Hin |].
  split; [apply c_pitches_covers_octave |].
  destruct (empty_tuple_matches_at_every_root [0; 14] c_pitches
              [([], "note"%string); ([4; 7], "maj"%string)] 14 Hempty Hin)
    as (_ & Htotal & Hrec).
  destruct (Htotal c_pitches_covers_octave) as (dct & Hdct).
  destruct (Hrec dct Hdct) as (labels & label & Hget & Hname & Hlabel).
  exists dct, labels. split; [exact Hdct |]. split; [exact Hget |].
  vm_compute in Hname. injection Hname as <-. exact Hlabel.
Defined.

(** ** [proc_config_info] *)

Lemma dict_set_keys {K V : Type} `{EqDecision K} (k k' : K) (v : V)
    (d : list (K * V)) :
  k' ∈ dict_keys (dict_set k v d) <-> k' = k \/ k' ∈ dict_keys d.
Proof.
  unfold dict_keys. induction d as [|[k0 v0] d IH]; simpl.
  - rewrite elem_of_cons, elem_of_nil. tauto.
  - destruct (decide (k = k0)) as [->|Hne]; simpl.
    + rewrite !elem_of_cons. tauto.
    + rewrite !elem_of_cons, IH. tauto.
Qed.

Lemma dict_get_None_keys {K V : Type} `{EqDecision K} (k : K)
    (d : list (K * V)) :
  dict_get k d = None <-> k ∉ dict_keys d.
Proof.
  split.
  - intros Hnone Hin. apply dict_get_is_Some in Hin as [v Hv]. congruence.
  - intros Hnot. destruct (dict_get k d) as [v|] eqn:Hv; [| done].
    by apply dict_get_Some_keys in Hv.
Qed.

Lemma proc_config_info_Ok (fs : file_system) (cfg_file : string)
    (modes : pydict string (list Z)) (intervals : pydict (list Z) string) :
  proc_config_info fs cfg_file = Ok (modes, intervals) <->
  exists cfg cds mds,
    fs !! cfg_file = Some cfg /\
    chord_definitions cfg = Some cds /\
    mode_definitions cfg = Some mds /\
    foldM (fun d '(k, v) => t ← tuple_eval v; Ok (dict_set t k d)) [] cds
    = Ok intervals /\
    modes = foldl (fun d '(k, v) => dict_set k (convert_seps v) d) [] mds.
Proof.
  unfold proc_config_info. split.
  - destruct (fs !! cfg_file) as [cfg|]; [| done]. simpl.
    destruct (chord_definitions cfg) as [cds|] eqn:Hc; [| done]. simpl.
    destruct (foldM _ [] cds) as [ivs|e] eqn:Hi; [| done]. simpl.
    destruct (mode_definitions cfg) as [mds|] eqn:Hm; [| done]. simpl.
    intros [= <- <-]. by exists cfg, cds, mds.
  - intros (cfg & cds & mds & -> & Hc & Hm & Hi & ->). simpl.
    rewrite Hc. simpl. rewrite Hi. simpl. by rewrite Hm.
Qed.

Lemma modes_keys (mds : pydict string (list Z)) (d0 : pydict string (list Z))
    (m : string) :
  m ∈ dict_keys (foldl (fun d '(k, v) => dict_set k (convert_seps v) d) d0 mds)
  <-> m ∈ dict_keys d0 \/ m ∈ dict_keys mds.
Proof.
  revert d0. induction mds as [|[k v] mds IH]; intros d0.
  - cbn [foldl]. unfold dict_keys. simpl. rewrite elem_of_nil. tauto.
  - cbn [foldl]. rewrite IH, dict_set_keys.
    unfold dict_keys. simpl. rewrite elem_of_cons. tauto.
Qed.

Lemma intervals_keys (cds : pydict string py_expr)
    (d0 : pydict (list Z) string) :
  Forall (fun kv => is_display kv.2 = true) cds ->
  exists intervals,
    foldM (fun d '(k, v) => t ← tuple_eval v; Ok (dict_set t k d)) d0 cds
    = Ok intervals /\
    forall t, t ∈ dict_keys intervals <->
              t ∈ dict_keys d0 \/ exists kv, kv ∈ cds /\ tuple_eval kv.2 = Ok t.
Proof.
  revert d0. induction cds as [|[k v] cds IH]; intros d0 Hall.
  - exists d0. split; [done |]. intros t. split; [tauto |].
    intros [?|(kv & Hkv & _)]; [done | by apply elem_of_nil in Hkv].
  - apply Forall_cons in Hall as [Hv Hall]. cbn [foldM]. simpl in Hv.
    assert (exists t0, tuple_eval v = Ok t0) as (t0 & Ht0)
      by (destruct v; [by eexists | by eexists | discriminate Hv]).
    rewrite Ht0. simpl.
    destruct (IH (dict_set t0 k d0) Hall) as (intervals & -> & Hkeys).
    exists intervals. split; [done |]. intros t.
    rewrite Hkeys, dict_set_keys. split.
    + intros [[->|?]|(kv & Hkv & Ht)]; [right | by left | right].
      * exists (k, v). split; [apply list_elem_of_here | done].
      * exists kv. split; [by apply list_elem_of_further | done].
    + intros [?|(kv & Hkv & Ht)]; [by left; right |].
      apply elem_of_cons in Hkv as [->|Hkv].
      * simpl in Ht. rewrite Ht0 in Ht. injection Ht as ->. by left; left.
      * right. by exists kv.
Qed.

Lemma tuple_eval_literal (v : py_expr) :
  is_literal_list v = true -> tuple_eval v = Ok (literal_ints v).
Proof.
  assert (forall es, forallb is_int_literal es = true ->
                     eval_int <$> es
                     = (fun e => match e with ILit z => z | _ => 0 end) <$> es)
    as Hes.
  { induction es as [|e es IH]; [done |]. cbn [forallb].
    intros [He Hes]%andb_true_iff. rewrite !fmap_cons, IH by done.
    by destruct e. }
  destruct v as [es|es|e]; intros Hlit; unfold tuple_eval, literal_ints.
  - f_equal. by apply Hes.
  - f_equal. by apply Hes.
  - discriminate Hlit.
Qed.

(** C2, as the code has it.  The loader evaluates each chord-definition
    offset expression and keys the chord by the tuple of the resulting
    integers.  When every expression is a list or tuple display the
    tables are produced, each expression contributing the tuple of its
    evaluated elements; for a literal integer list that tuple is the
    integers as written; an expression with arithmetic in it is evaluated
    like any other, not rejected. *)
Theorem proc_config_info_evaluates_offsets (fs : file_system)
    (cfg_file : string) (cfg : yaml_cfg) (cds : pydict string py_expr)
    (mds : pydict string (list Z)) :
  fs !! cfg_file = Some cfg ->
  chord_definitions cfg = Some cds ->
  mode_definitions cfg = Some mds ->
  Forall (fun kv => is_display kv.2 = true) cds ->
  exists modes intervals,
    proc_config_info fs cfg_file = Ok (modes, intervals) /\
    forall (name : string) (v : py_expr),
      (name, v) ∈ cds ->
      exists t : list Z,
        tuple_eval v = Ok t /\
        t ∈ dict_keys intervals /\
        (is_literal_list v = true -> t = literal_ints v).
Proof.
  intros Hfs Hc Hm Hall.
  destruct (intervals_keys cds [] Hall) as (intervals & Hi & Hkeys).
  exists (foldl (fun d '(k, v) => dict_set k (convert_seps v) d) [] mds),
    intervals.
  split.
  - apply proc_config_info_Ok. by exists cfg, cds, mds.
  - intros name v Hin.
    assert (is_display v = true) as Hv.
    { rewrite Forall_forall in Hall. by apply (Hall (name, v)). }
    assert (exists t, tuple_eval v = Ok t) as (t & Ht)
      by (destruct v; [by eexists | by eexists | discriminate Hv]).
    exists t. split; [done |]. split.
    + apply Hkeys. right. by exists (name, v).
    + intros Hlit. apply tuple_eval_literal in Hlit. congruence.
Qed.

Lemma proc_config_info_evaluates_offsets_witness :
  exists modes intervals,
    proc_config_info arithmetic_fs "chord_config.yml" = Ok (modes, intervals) /\
    [3; 7] ∈ dict_keys intervals.
Proof.
  destruct (proc_config_info_evaluates_offsets arithmetic_fs "chord_config.yml"
              arithmetic_cfg
              [("x"%string, EList [IAdd (ILit 1) (ILit 2); ILit 7])] [])
    as (modes & intervals & Hok & Hkeys).
  - reflexivity.
  - reflexivity.
  - reflexivity.
  - repeat constructor.
  - exists modes, intervals. split; [exact Hok |].
    destruct (Hkeys "x"%string (EList [IAdd (ILit 1) (ILit 2); ILit 7]))
      as (t & Ht & Hin & _); [apply list_elem_of_here |].
    vm_compute in Ht. injection Ht as <-. exact Hin.
Defined.

(** C2 as stated fails: a chord definition whose offset expression is
    not a literal is not rejected by the loader. *)
Lemma non_literal_offsets_not_rejected :
  ¬ (forall (fs : file_system) (cfg : yaml_cfg)
            (cds : pydict string py_expr) (name : string) (v : py_expr),
        fs !! "chord_config.yml"%string = Some cfg ->
        chord_definitions cfg = Some cds ->
        (name, v) ∈ cds ->
        is_literal_list v = false ->
        exists e, proc_config_info fs "chord_config.yml" = Raise e).
Proof.
  intros H.
  destruct (H arithmetic_fs arithmetic_cfg
              [("x"%string, EList [IAdd (ILit 1) (ILit 2); ILit 7])]
              "x"%string (EList [IAdd (ILit 1) (ILit 2); ILit 7]))
    as (e & He).
  - reflexivity.
  - reflexivity.
  - apply list_elem_of_here.
  - reflexivity.
  - vm_compute in He. discriminate He.
Qed.

(** ** [chord_finder] *)

Lemma pitches_lookup_None (l : list (Z * string)) (m0 : gmap string Z)
    (s : string) :
  s ∉ l.*2 -> m0 !! s = None ->
  foldl (fun m '(i, k) => <[k := i]> m) m0 l !! s = None.
Proof.
  revert m0. induction l as [|[i k] l IH]; intros m0 Hnot Hm0; [done |].
  simpl in *. apply not_elem_of_cons in Hnot as [Hne Hnot].
  apply IH; [done |]. by rewrite lookup_insert_ne.
Qed.

Lemma enumerate_snd {A : Type} (l : list A) : (enumerate l).*2 = l.
Proof.
  unfold enumerate. apply snd_zip. by rewrite length_fmap, length_seq.
Qed.

Lemma pitch_table_invalid (pitch_names : list string)
    (starting_pitch : string) :
  starting_pitch ∉ pitch_names ->
  pitch_table pitch_names starting_pitch
  = Raise (KeyError (KStr starting_pitch)).
Proof.
  intros Hnot. unfold pitch_table, getitem_map.
  rewrite (pitches_lookup_None _ _ starting_pitch);
    [reflexivity | by rewrite enumerate_snd | done].
Qed.

Lemma pitch_table_valid (b : bool) (starting_pitch : string) :
  starting_pitch ∈ pitch_names_for b ->
  is_Ok (pitch_table (pitch_names_for b) starting_pitch).
Proof.
  intros Hin. pose proof (pitch_table_ok b starting_pitch Hin) as Hok.
  destruct (pitch_table _ _) as [m|e]; [by exists m | discriminate Hok].
Qed.

(** C8.  [chord_finder] prints nothing and ends with an exception
    whenever the requested pitch is not one of the twelve names of the
    spelling in force, or the requested mode is not a key of the mode
    definitions of the configuration.  When the configuration itself
    loads, that exception is the [KeyError] of the pitch name, or, for a
    valid pitch, the [KeyError] of the mode name. *)
Theorem chord_finder_invalid_input (fs : file_system) (pitch mode : string)
    (rest : list string) :
  (pitch ∉ pitch_names_for (resolved_sharped pitch true) ->
   exists e : exn,
     chord_finder fs (pitch :: mode :: rest) = ([], Raise e) /\
     (is_Ok (proc_config_info fs "chord_config.yml") ->
      e = KeyError (KStr pitch))) /\
  (forall (cfg : yaml_cfg) (mds : pydict string (list Z)),
      fs !! "chord_config.yml"%string = Some cfg ->
      mode_definitions cfg = Some mds ->
      mode ∉ dict_keys mds ->
      exists e : exn,
        chord_finder fs (pitch :: mode :: rest) = ([], Raise e) /\
        (is_Ok (proc_config_info fs "chord_config.yml") ->
         pitch ∈ pitch_names_for (resolved_sharped pitch true) ->
         e = KeyError (KStr mode))).
Proof.
  split.
  - intros Hbad. unfold chord_finder, chord_finder_search. simpl.
    destruct (proc_config_info fs "chord_config.yml")
      as [[modes intervals]|e] eqn:Hcfg; simpl.
    + unfold generate_pitch_names. simpl.
      rewrite pitch_table_invalid by done. simpl. by eexists.
    + exists e. split; [done |]. by intros [? [=]].
  - intros cfg mds Hfs Hm Habsent.
    unfold chord_finder, chord_finder_search. simpl.
    destruct (proc_config_info fs "chord_config.yml")
      as [[modes intervals]|e] eqn:Hcfg; simpl.
    + apply proc_config_info_Ok in Hcfg
        as (cfg' & cds & mds' & Hfs' & _ & Hm' & _ & ->).
      assert (mds' = mds) as -> by congruence.
      destruct (decide (pitch ∈ pitch_names_for (resolved_sharped pitch true)))
        as [Hin|Hbad].
      * unfold generate_pitch_names. simpl.
        destruct (pitch_table_valid _ _ Hin) as (m & ->). simpl.
        unfold getitem.
        assert (dict_get mode
                  (foldl (fun d '(k, v) => dict_set k (convert_seps v) d)
                         [] mds) = None) as ->.
        { apply dict_get_None_keys. rewrite modes_keys.
          intros [H|H]; [by apply elem_of_nil in H | done]. }
        simpl. by eexists.
      * unfold generate_pitch_names. simpl.
        rewrite pitch_table_invalid by done. simpl.
        eexists. split; [done |]. by intros _ ?.
    + exists e. split; [done |]. by intros [? [=]].
Qed.

Lemma chord_finder_invalid_input_witness :
  (¬ ("H"%string ∈ pitch_names_for (resolved_sharped "H" true)) /\
   chord_finder sample_fs ["H"; "major"]%string
   = ([], Raise (KeyError (KStr "H")))) /\
  (¬ ("minor"%string ∈ dict_keys [("major"%string, [2; 2; 1; 2; 2; 2; 1])]) /\
   chord_finder sample_fs ["G"; "minor"]%string
   = ([], Raise (KeyError (KStr "minor")))).
Proof.
  assert ("H"%string ∉ pitch_names_for (resolved_sharped "H" true)) as Hbad.
  { apply (bool_decide_unpack _). vm_compute. exact I. }
  assert ("minor"%string ∉ dict_keys [("major"%string, [2; 2; 1; 2; 2; 2; 1])])
    as Habsent.
  { apply (bool_decide_unpack _). vm_compute. exact I. }
  assert (is_Ok (proc_config_info sample_fs "chord_config.yml")) as Hcfg.
  { eexists. vm_compute. reflexivity. }
  split; (split; [done |]).
  - destruct (proj1 (chord_finder_invalid_input sample_fs "H" "major" []) Hbad)
      as (e & Hrun & He).
    rewrite Hrun, (He Hcfg). reflexivity.
  - destruct (proj2 (chord_finder_invalid_input sample_fs "G" "minor" [])
                sample_cfg [("major"%string, [2; 2; 1; 2; 2; 2; 1])]
                eq_refl eq_refl Habsent)
      as (e & Hrun & He).
    rewrite Hrun, (He Hcfg). { reflexivity. }
    apply (bool_decide_unpack _). vm_compute. exact I.
Defined.

(** * Further properties of the code *)

(** ** [reset_octave] *)

Lemma while_above_small (num : Z) : num <= 11 -> while_above num = Ok num.
Proof.
  funelim (while_above num); intros Hle.
  - done.
  - lia.
  - lia.
Qed.

(** X1.  [reset_octave] depends on its argument only up to whole
    octaves, applying it twice is applying it once, and the integers it
    returns unchanged are exactly those of the range 0..11. *)
Theorem reset_octave_periodic_idempotent (num : Z) :
  (forall k : Z, reset_octave (num + 12 * k) = reset_octave num) /\
  reset_octave num ≫= reset_octave = reset_octave num /\
  (reset_octave num = Ok num <-> 0 <= num <= 11).
Proof.
  split; [| split].
  - intros k. rewrite !reset_octave_eq. f_equal.
    rewrite (Z.mul_comm 12 k). apply Z.mod_add. lia.
  - rewrite reset_octave_eq. simpl. rewrite reset_octave_eq.
    by rewrite Z.mod_mod.
  - rewrite reset_octave_eq. split.
    + intros [= H]. rewrite <- H. apply mod12_range.
    + intros H. f_equal. apply Z.mod_small. lia.
Qed.

(** X2.  The two [raise Exception('Not Possible')] statements are never
    reached: on every integer the first loop returns, the second loop
    returns (also when entered directly on a negative number, which it
    leaves unchanged), and [reset_octave] raises nothing. *)
Theorem reset_octave_never_raises (num : Z) :
  (forall e : exn, while_negative num ≠ Raise e) /\
  (forall e : exn, while_above num ≠ Raise e) /\
  (forall e : exn, reset_octave num ≠ Raise e) /\
  (num < 0 -> while_above num = Ok num).
Proof.
  split; [| split; [| split]].
  - intros e. by rewrite while_negative_eq.
  - intros e. destruct (decide (0 <= num)).
    + by rewrite while_above_eq.
    + by rewrite while_above_small by lia.
  - intros e. by rewrite reset_octave_eq.
  - intros Hneg. apply while_above_small. lia.
Qed.

Lemma reset_octave_never_raises_witness :
  -5 < 0 /\ while_above (-5) = Ok (-5).
Proof.
  split; [lia |].
  apply (reset_octave_never_raises (-5)). lia.
Defined.

(** ** [get_possible_chords]: the membership test *)

Lemma fitsb_shift_root (mode : list Z) (root : Z) (it : list Z) (k : Z) :
  fitsb mode (root + 12 * k) it = fitsb mode root it.
Proof.
  unfold fitsb. induction it as [|x it IH]; [done |].
  cbn [forallb]. rewrite IH. do 2 f_equal.
  replace (root + 12 * k + x) with (root + x + k * 12) by lia.
  by rewrite Z.mod_add.
Qed.

Lemma fitsb_shift_offsets (mode : list Z) (root : Z) (it : list Z) (k : Z) :
  fitsb mode root ((fun x => x + 12 * k) <$> it) = fitsb mode root it.
Proof.
  unfold fitsb. induction it as [|x it IH]; [done |].
  rewrite fmap_cons. cbn [forallb]. rewrite IH. do 2 f_equal.
  replace (root + (x + 12 * k)) with (root + x + k * 12) by lia.
  by rewrite Z.mod_add.
Qed.

(** X3.  The test [all(reset_octave(root + x) in mode ...)] raises
    nothing, is vacuously true for the empty tuple, and sees the root and
    the offsets only up to whole octaves: moving the root, or every
    offset of the chord shape, by a multiple of 12 does not change its
    answer. *)
Theorem all_in_mode_octave_invariant (mode : list Z) (root : Z)
    (it : list Z) (k : Z) :
  (exists b : bool, all_in_mode mode root it = Ok b) /\
  all_in_mode mode root [] = Ok true /\
  all_in_mode mode (root + 12 * k) it = all_in_mode mode root it /\
  all_in_mode mode root ((fun x => x + 12 * k) <$> it)
  = all_in_mode mode root it.
Proof.
  rewrite !all_in_mode_eq. split; [by eexists |]. split; [done |].
  by rewrite fitsb_shift_root, fitsb_shift_offsets.
Qed.

(** ** [name_chord] *)

Lemma string_length_app (s1 s2 : string) :
  String.length (s1 +:+ s2) = (String.length s1 + String.length s2)%nat.
Proof. induction s1 as [|c s1 IH]; simpl; [done | by rewrite IH]. Qed.

Lemma string_app_empty_r (s : string) : s +:+ "" = s.
Proof.
  induction s as [|c s IH]; [done |].
  change (String c (s +:+ "") = String c s). by rewrite IH.
Qed.

Lemma ljust2_spec (p : string) :
  exists pad : string,
    ljust2 p = p +:+ pad /\
    (pad = "" \/ pad = " " \/ pad = "  ")%string /\
    String.length (ljust2 p) = Nat.max 2 (String.length p).
Proof.
  unfold ljust2. destruct p as [|c1 [|c2 p]]; simpl.
  - exists "  "%string. auto.
  - exists " "%string. auto.
  - exists ""%string. split; [| split; [auto |]].
    + by rewrite string_app_empty_r.
    + done.
Qed.

(** X4.  [name_chord] returns a label exactly when the root is a key of
    the pitch mapping and the tuple a key of the chord table: the label
    is the pitch name, filled with spaces to two characters when shorter,
    followed by the chord name.  A missing root raises the [KeyError] of
    the root, whether or not the tuple is known; a known root with an
    unknown tuple raises the [KeyError] of the tuple. *)
Theorem name_chord_label_or_key_error (root : Z) (interval_tup : list Z)
    (pitch_dct : gmap Z string) (chord_intervals : pydict (list Z) string) :
  (forall label : string,
      name_chord root interval_tup pitch_dct chord_intervals = Ok label <->
      exists p c : string,
        pitch_dct !! root = Some p /\
        dict_get interval_tup chord_intervals = Some c /\
        label = ljust2 p +:+ c) /\
  (forall p c : string,
      pitch_dct !! root = Some p ->
      dict_get interval_tup chord_intervals = Some c ->
      exists pad : string,
        name_chord root interval_tup pitch_dct chord_intervals
        = Ok ((p +:+ pad) +:+ c) /\
        String.length (p +:+ pad) = Nat.max 2 (String.length p) /\
        (pad = "" \/ pad = " " \/ pad = "  ")%string) /\
  (pitch_dct !! root = None ->
   name_chord root interval_tup pitch_dct chord_intervals
   = Raise (KeyError (KInt root))) /\
  (is_Some (pitch_dct !! root) ->
   dict_get interval_tup chord_intervals = None ->
   name_chord root interval_tup pitch_dct chord_intervals
   = Raise (KeyError (KTuple interval_tup))).
Proof.
  unfold name_chord, getitem_map, getitem.
  split; [| split; [| split]].
  - intros label. split.
    + destruct (pitch_dct !! root) as [p|]; [| done]. simpl.
      destruct (dict_get interval_tup chord_intervals) as [c|]; [| done].
      simpl. intros [= <-]. by exists p, c.
    + intros (p & c & -> & -> & ->). done.
  - intros p c -> ->. simpl.
    destruct (ljust2_spec p) as (pad & Hpad & Hcases & Hlen).
    exists pad. rewrite <- Hpad. done.
  - by intros ->.
  - intros [p ->] ->. done.
Qed.

Lemma name_chord_label_or_key_error_witness :
  name_chord 0 [3; 7] c_pitches triads = Ok "C m"%string /\
  name_chord 12 [3; 7] c_pitches triads = Raise (KeyError (KInt 12)) /\
  name_chord 1 [5] c_pitches triads = Raise (KeyError (KTuple [5])).
Proof.
  split; [| split].
  - apply (name_chord_label_or_key_error 0 [3; 7] c_pitches triads).
    exists "C"%string, "m"%string. repeat split; reflexivity.
  - apply (name_chord_label_or_key_error 12 [3; 7] c_pitches triads).
    reflexivity.
  - apply (name_chord_label_or_key_error 1 [5] c_pitches triads).
    + eexists. reflexivity.
    + reflexivity.
Defined.

(** ** [pretty_print_dict] *)

Lemma insert_sorted_perm (x : string) (l : list string) :
  insert_sorted x l ≡ₚ x :: l.
Proof.
  induction l as [|y l IH]; simpl; [done |].
  destruct (String.leb x y); [done |].
  rewrite IH. apply Permutation_swap.
Qed.

Lemma insert_sorted_Sorted (x : string) (l : list string) :
  Sorted str_le l -> Sorted str_le (insert_sorted x l).
Proof.
  induction l as [|y l IH]; simpl; intros Hs.
  - by repeat constructor.
  - destruct (String.leb x y) eqn:Hxy.
    + constructor; [done | by constructor].
    + apply Sorted_inv in Hs as [Hs Hhd].
      constructor; [by apply IH |].
      assert (str_le y x) as Hyx.
      { destruct (String.leb_total x y) as [H|H]; [congruence | done]. }
      destruct l as [|z l]; simpl.
      * by constructor.
      * destruct (String.leb x z); constructor; [done |].
        by apply HdRel_inv in Hhd.
Qed.

Lemma sorted_perm (l : list string) : sorted l ≡ₚ l.
Proof.
  unfold sorted. induction l as [|x l IH]; simpl; [done |].
  by rewrite insert_sorted_perm, IH.
Qed.

Lemma sorted_Sorted (l : list string) : Sorted str_le (sorted l).
Proof.
  unfold sorted. induction l as [|x l IH]; simpl; [constructor |].
  by apply insert_sorted_Sorted.
Qed.

(** X5.  [pretty_print_dict] prints one block of lines per entry of the
    dictionary, in the order of the entries: the block of an entry is its
    labels rearranged into ascending order, each behind the prefix
    [" - "].  So the number of lines printed is the number of labels in
    the dictionary, and an empty dictionary prints nothing. *)
Theorem pretty_print_dict_sorted_blocks (chord_dct : pydict Z (list string)) :
  pretty_print_dict [] = [] /\
  (exists blocks : list (list string),
      pretty_print_dict chord_dct
      = concat ((fun block : list string =>
                   (fun x => " - " +:+ x) <$> block) <$> blocks) /\
      Forall2 (fun kv block => block ≡ₚ kv.2 /\ Sorted str_le block)
              chord_dct blocks) /\
  length (pretty_print_dict chord_dct)
  = sum_list (length <$> (snd <$> (chord_dct : list (Z * list string)))).
Proof.
  split; [done |]. split.
  - exists (sorted <$> (snd <$> (chord_dct : list (Z * list string)))). split.
    + unfold pretty_print_dict.
      induction chord_dct as [|[k v] d IH]; [done |].
      simpl. by rewrite IH.
    + induction chord_dct as [|[k v] d IH]; simpl; constructor; [| done].
      split; [apply sorted_perm | apply sorted_Sorted].
  - unfold pretty_print_dict.
    induction chord_dct as [|[k v] d IH]; [done |].
    simpl. rewrite length_app, IH, length_fmap.
    by rewrite (Permutation_length (sorted_perm v)).
Qed.

(** ** [get_possible_chords]: the dictionary returned *)

Lemma dict_set_NoDup {K V : Type} `{EqDecision K} (k : K) (v : V)
    (d : list (K * V)) :
  NoDup (dict_keys d) -> NoDup (dict_keys (dict_set k v d)).
Proof.
  induction d as [|[k0 v0] d IH]; intros Hnd.
  - unfold dict_keys. simpl. apply NoDup_singleton.
  - simpl. unfold dict_keys in Hnd. simpl in Hnd.
    apply NoDup_cons in Hnd as [Hk0 Hnd].
    destruct (decide (k = k0)) as [->|Hne].
    + unfold dict_keys. simpl. by apply NoDup_cons.
    + change (NoDup (k0 :: dict_keys (dict_set k v d))).
      apply NoDup_cons. split; [| by apply IH].
      rewrite dict_set_keys. intros [?|?]; [congruence | done].
Qed.

Lemma dict_set_length {K V : Type} `{EqDecision K} (k : K) (v : V)
    (d : list (K * V)) :
  (length (dict_set k v d) <= S (length d))%nat.
Proof.
  induction d as [|[k0 v0] d IH]; simpl; [lia |].
  destruct (decide (k = k0)); simpl; lia.
Qed.

Lemma dict_set_Forall {K V : Type} `{EqDecision K} (P : K * V -> Prop)
    (k : K) (v : V) (d : list (K * V)) :
  P (k, v) -> Forall P d -> Forall P (dict_set k v d).
Proof.
  intros Hkv. induction d as [|[k0 v0] d IH]; simpl; intros Hall.
  - by repeat constructor.
  - apply Forall_cons in Hall as [H0 Hall].
    destruct (decide (k = k0)) as [->|Hne]; constructor; auto.
Qed.

Lemma dict_get_elem_of {K V : Type} `{EqDecision K} (k : K) (v : V)
    (d : list (K * V)) :
  dict_get k d = Some v -> (k, v) ∈ d.
Proof.
  induction d as [|[k0 v0] d IH]; simpl; [done |].
  destruct (decide (k = k0)) as [->|Hne].
  - intros [= ->]. apply list_elem_of_here.
  - intros H. apply list_elem_of_further. by apply IH.
Qed.

(** One step of the outer loop, taken apart. *)
Lemma chords_loop_cons (mode : list Z) (pitch_dct : gmap Z string)
    (chord_intervals : pydict (list Z) string) (r : Z) (roots : list Z)
    (dct0 dct : pydict Z (list string)) :
  chords_loop mode pitch_dct chord_intervals dct0 (r :: roots) = Ok dct <->
  exists labels,
    matches_at mode pitch_dct chord_intervals (r `mod` 12) = Ok labels /\
    chords_loop mode pitch_dct chord_intervals
      (match labels with
       | [] => dct0
       | _ :: _ => dict_set (r `mod` 12) labels dct0
       end) roots = Ok dct.
Proof.
  unfold chords_loop. cbn [foldM]. rewrite reset_octave_eq. simpl.
  rewrite possible_chords_at_eq.
  destruct (matches_at mode pitch_dct chord_intervals (r `mod` 12))
    as [labels|e]; simpl.
  - split.
    + intros H. exists labels. split; [done |]. by destruct labels.
    + intros (labels' & [= <-] & H). by destruct labels.
  - split; [done | by intros (? & [=] & _)].
Qed.

(** An invariant of the entries: what holds of the entries at the start
    and of every entry the loop can write holds of the entries at the
    end. *)
Lemma chords_loop_entries (P : Z * list string -> Prop) (mode : list Z)
    (pitch_dct : gmap Z string) (chord_intervals : pydict (list Z) string)
    (roots : list Z) (dct0 dct : pydict Z (list string)) :
  (forall r l ls,
      r ∈ roots ->
      matches_at mode pitch_dct chord_intervals (r `mod` 12) = Ok (l :: ls) ->
      P (r `mod` 12, l :: ls)) ->
  chords_loop mode pitch_dct chord_intervals dct0 roots = Ok dct ->
  Forall P dct0 -> Forall P dct.
Proof.
  revert dct0. induction roots as [|r roots IH]; intros dct0 HP Hloop Hall.
  - by injection Hloop as <-.
  - apply chords_loop_cons in Hloop as (labels & Hl & Hloop).
    eapply IH; [| exact Hloop |].
    + intros r' l ls Hr'. apply HP. by apply list_elem_of_further.
    + destruct labels as [|l ls]; [done |].
      apply dict_set_Forall; [| done].
      apply HP; [apply list_elem_of_here | done].
Qed.

Lemma chords_loop_keys (mode : list Z) (pitch_dct : gmap Z string)
    (chord_intervals : pydict (list Z) string) (roots : list Z)
    (dct0 dct : pydict Z (list string)) :
  chords_loop mode pitch_dct chord_intervals dct0 roots = Ok dct ->
  NoDup (dict_keys dct0) ->
  NoDup (dict_keys dct) /\
  (length dct <= length dct0 + length roots)%nat.
Proof.
  revert dct0. induction roots as [|r roots IH]; intros dct0 Hloop Hnd.
  - injection Hloop as <-. split; [done | lia].
  - apply chords_loop_cons in Hloop as (labels & Hl & Hloop).
    apply IH in Hloop as [Hnd' Hlen].
    + split; [done |]. destruct labels as [|l ls]; simpl.
      * lia.
      * pose proof (dict_set_length (r `mod` 12) (l :: ls) dct0). simpl. lia.
    + destruct labels; [done | by apply dict_set_NoDup].
Qed.

(** X6.  The dictionary [get_possible_chords] returns has no key twice
    (a root reached again, such as 12 after 0, rewrites its entry), every
    key lies in 0..11 and is the reduction of an offset of the mode, and
    the list under a key is the list of labels of the shapes that fit at
    that key.  It has at most twelve entries, and at most as many as the
    mode has offsets. *)
Theorem get_possible_chords_keys (mode : list Z)
    (pitch_dct : gmap Z string) (chord_intervals : pydict (list Z) string)
    (dct : pydict Z (list string)) :
  get_possible_chords mode pitch_dct chord_intervals = Ok dct ->
  NoDup (dict_keys dct) /\
  (forall (key : Z) (labels : list string),
      (key, labels) ∈ dct ->
      0 <= key <= 11 /\
      (exists r : Z, r ∈ mode /\ reset_octave r = Ok key) /\
      dict_get key dct = Some labels /\
      matches_at mode pitch_dct chord_intervals key = Ok labels) /\
  (length dct <= 12)%nat /\
  (length dct <= length mode)%nat.
Proof.
  intros Hdct.
  destruct (chords_loop_keys _ _ _ _ _ _ Hdct) as [Hnd Hlen];
    [apply NoDup_nil_2 |].
  assert (Forall (fun kv : Z * list string =>
                    (exists r, r ∈ mode /\ kv.1 = r `mod` 12) /\
                    matches_at mode pitch_dct chord_intervals kv.1 = Ok kv.2)
                 dct) as Hall.
  { eapply chords_loop_entries; [| exact Hdct | constructor].
    intros r l ls Hr Hl. simpl. split; [by exists r | done]. }
  rewrite Forall_forall in Hall.
  assert (forall key labels, (key, labels) ∈ dct -> 0 <= key <= 11) as Hrange.
  { intros key labels Hin. destruct (Hall _ Hin) as [(r & _ & Hk) _].
    simpl in Hk. rewrite Hk. apply mod12_range. }
  split; [done |]. split; [| split; [| done]].
  - intros key labels Hin. split; [by eapply Hrange |].
    destruct (Hall _ Hin) as [(r & Hr & Hk) Hm]. simpl in Hk, Hm.
    split; [| split; [| done]].
    + exists r. split; [done |]. rewrite Hk. apply reset_octave_eq.
    + destruct (dict_get key dct) as [labels'|] eqn:Hget.
      * apply dict_get_elem_of in Hget.
        destruct (Hall _ Hget) as [_ Hm']. simpl in Hm'. congruence.
      * apply dict_get_None_keys in Hget. exfalso. apply Hget.
        unfold dict_keys. by apply (list_elem_of_fmap_2 fst _ (key, labels)).
  - assert (dict_keys dct ⊆+ Z.of_nat <$> seq 0 12) as Hsub.
    { apply NoDup_submseteq; [done |]. intros key Hkey.
      apply list_elem_of_fmap in Hkey as ([k labels] & -> & Hin).
      apply Hrange in Hin. cbn [fst].
      apply list_elem_of_fmap. exists (Z.to_nat k). split; [lia |].
      apply elem_of_seq. lia. }
    apply submseteq_length in Hsub.
    unfold dict_keys in Hsub.
    by rewrite !length_fmap, length_seq in Hsub.
Qed.

Lemma get_possible_chords_keys_witness :
  get_possible_chords c_major c_pitches triads
  = Ok [(0, ["C maj"]); (2, ["D m"]); (4, ["E m"]); (5, ["F maj"]);
        (7, ["G maj"]); (9, ["A m"]); (11, ["B dim"])]%string /\
  (length c_major = 8)%nat /\
  NoDup (dict_keys [(0, ["C maj"]); (2, ["D m"]); (4, ["E m"]); (5, ["F maj"]);
                    (7, ["G maj"]); (9, ["A m"]); (11, ["B dim"])]%string).
Proof.
  split; [reflexivity |]. split; [reflexivity |].
  apply (get_possible_chords_keys c_major c_pitches triads). reflexivity.
Defined.

Lemma fitsb_ext (mode1 mode2 : list Z) (root : Z) (it : list Z) :
  (forall x : Z, 0 <= x <= 11 -> x ∈ mode1 <-> x ∈ mode2) ->
  fitsb mode1 root it = fitsb mode2 root it.
Proof.
  intros Hsame. unfold fitsb. induction it as [|x it IH]; [done |].
  cbn [forallb]. rewrite IH. f_equal.
  apply bool_decide_ext, Hsame, mod12_range.
Qed.

Lemma matches_at_ext (mode1 mode2 : list Z) (pitch_dct : gmap Z string)
    (chord_intervals : pydict (list Z) string) (key : Z) :
  (forall x : Z, 0 <= x <= 11 -> x ∈ mode1 <-> x ∈ mode2) ->
  matches_at mode1 pitch_dct chord_intervals key
  = matches_at mode2 pitch_dct chord_intervals key.
Proof.
  intros Hsame. unfold matches_at. f_equal.
  apply list_filter_iff. intros it. by rewrite (fitsb_ext mode1 mode2).
Qed.

Lemma chords_loop_is_Ok (mode : list Z) (pitch_dct : gmap Z string)
    (chord_intervals : pydict (list Z) string) (roots : list Z)
    (dct0 : pydict Z (list string)) :
  (forall r, r ∈ roots ->
             is_Ok (matches_at mode pitch_dct chord_intervals (r `mod` 12))) ->
  is_Ok (chords_loop mode pitch_dct chord_intervals dct0 roots).
Proof.
  revert dct0. induction roots as [|r roots IH]; intros dct0 Hok.
  - by exists dct0.
  - destruct (Hok r) as (labels & Hl); [apply list_elem_of_here |].
    destruct (IH (match labels with
                  | [] => dct0
                  | _ :: _ => dict_set (r `mod` 12) labels dct0
                  end)) as (dct & Hdct).
    { intros r' Hr'. apply Hok. by apply list_elem_of_further. }
    exists dct. apply chords_loop_cons. by exists labels.
Qed.

(** X7.  What [get_possible_chords] records under each key depends on the
    mode only through which of 0..11 occur in it and which roots its
    offsets reduce to.  Two modes that agree on both (one a reordering
    of the other, or the same with offsets repeated, or with an offset
    that is not in 0..11 dropped when its reduction is present as a root
    anyway) give dictionaries with the same entry under every key, and if
    the call returns for one it returns for the other. *)
Theorem get_possible_chords_mode_content (mode1 mode2 : list Z)
    (pitch_dct : gmap Z string) (chord_intervals : pydict (list Z) string)
    (dct1 : pydict Z (list string)) :
  (forall x : Z, 0 <= x <= 11 -> x ∈ mode1 <-> x ∈ mode2) ->
  (forall k : Z,
      k ∈ (fun r => r `mod` 12) <$> mode1 <->
      k ∈ (fun r => r `mod` 12) <$> mode2) ->
  get_possible_chords mode1 pitch_dct chord_intervals = Ok dct1 ->
  exists dct2 : pydict Z (list string),
    get_possible_chords mode2 pitch_dct chord_intervals = Ok dct2 /\
    forall key : Z, dict_get key dct1 = dict_get key dct2.
Proof.
  intros Hsame Hroots Hdct1.
  destruct (chords_loop_is_Ok mode2 pitch_dct chord_intervals mode2 [])
    as (dct2 & Hdct2).
  { intros r Hr.
    assert (r `mod` 12 ∈ (fun r0 => r0 `mod` 12) <$> mode1) as Hin
      by (by apply Hroots, (list_elem_of_fmap_2 (fun r0 => r0 `mod` 12))).
    apply list_elem_of_fmap in Hin as (r1 & Heq & Hr1).
    destruct (chords_loop_matches_ok _ _ _ _ _ _ _ Hdct1 Hr1) as (labels & Hl).
    exists labels. by rewrite Heq, <- (matches_at_ext mode1 mode2). }
  exists dct2. split; [done |]. intros key.
  rewrite (chords_loop_lookup _ _ _ _ _ _ key Hdct1).
  rewrite (chords_loop_lookup _ _ _ _ _ _ key Hdct2).
  rewrite (bool_decide_ext _ _ (Hroots key)).
  by rewrite (matches_at_ext mode1 mode2).
Qed.

Lemma get_possible_chords_mode_content_witness :
  exists dct2 : pydict Z (list string),
    get_possible_chords [7; 4; 0] c_pitches triads = Ok dct2 /\
    forall key : Z,
      dict_get key [(0, ["C maj"%string])] = dict_get key dct2.
Proof.
  apply (get_possible_chords_mode_content [0; 4; 7; 12] [7; 4; 0]
           c_pitches triads).
  - intros x Hx. rewrite !elem_of_cons, !elem_of_nil. lia.
  - intros k. cbn. rewrite !elem_of_cons, !elem_of_nil.
    repeat match goal with
           | |- context [?a `mod` 12] =>
               let v := eval vm_compute in (a `mod` 12) in
               change (a `mod` 12) with v
           end.
    tauto.
  - reflexivity.
Defined.

Lemma filter_all {A : Type} (P : A -> Prop) `{forall x, Decision (P x)}
    (l : list A) :
  (forall x, x ∈ l -> P x) -> filter P l = l.
Proof.
  induction l as [|a l IH]; intros Hall; [done |].
  rewrite filter_cons, decide_True by apply Hall, list_elem_of_here.
  f_equal. apply IH. intros x Hx. by apply Hall, list_elem_of_further.
Qed.

(** X8.  In a mode in which every one of 0..11 occurs, every chord shape
    of a non-empty table is found at every root: each offset of the mode,
    reduced, is a key of the result, and the list under it has the labels
    of all the shapes of the table, in table order. *)
Theorem get_possible_chords_chromatic (mode : list Z)
    (pitch_dct : gmap Z string) (chord_intervals : pydict (list Z) string)
    (dct : pydict Z (list string)) (r : Z) :
  (forall k : Z, 0 <= k <= 11 -> k ∈ mode) ->
  chord_intervals ≠ [] ->
  r ∈ mode ->
  get_possible_chords mode pitch_dct chord_intervals = Ok dct ->
  exists labels : list string,
    dict_get (r `mod` 12) dct = Some labels /\
    Forall2 (fun t label =>
               name_chord (r `mod` 12) t pitch_dct chord_intervals = Ok label)
            (dict_keys chord_intervals) labels.
Proof.
  intros Hall Hne Hr Hdct.
  destruct (chords_loop_matches_ok _ _ _ _ _ _ _ Hdct Hr) as (labels & Hl).
  exists labels.
  assert (filter (fun it => fitsb mode (r `mod` 12) it)
                 (dict_keys chord_intervals) = dict_keys chord_intervals)
    as Hfilter.
  { apply filter_all. intros t _. apply Is_true_true.
    unfold fitsb. apply forallb_forall. intros x _.
    apply bool_decide_eq_true, Hall, mod12_range. }
  pose proof Hl as HF. unfold matches_at in HF. rewrite Hfilter in HF.
  apply mapM_Ok_Forall2 in HF. split; [| done].
  rewrite (chords_loop_lookup _ _ _ _ _ _ (r `mod` 12) Hdct).
  rewrite bool_decide_eq_true_2
    by (by apply (list_elem_of_fmap_2 (fun r0 => r0 `mod` 12))).
  rewrite Hl. destruct labels as [|l ls]; [| done].
  apply Forall2_nil_inv_r in HF.
  destruct chord_intervals; [done | discriminate HF].
Qed.

Lemma get_possible_chords_chromatic_witness :
  exists (dct : pydict Z (list string)) (labels : list string),
    get_possible_chords (Z.of_nat <$> seq 0 12) c_pitches
      [([4; 7], "maj"); ([3; 7], "m")]%string = Ok dct /\
    dict_get 6 dct = Some labels /\
    Forall2 (fun t label =>
               name_chord 6 t c_pitches
                 [([4; 7], "maj"); ([3; 7], "m")]%string = Ok label)
            [[4; 7]; [3; 7]] labels.
Proof.
  destruct (get_possible_chords (Z.of_nat <$> seq 0 12) c_pitches
              [([4; 7], "maj"); ([3; 7], "m")]%string) as [dct|e] eqn:Hdct;
    [| vm_compute in Hdct; discriminate Hdct].
  exists dct.
  destruct (get_possible_chords_chromatic (Z.of_nat <$> seq 0 12) c_pitches
              [([4; 7], "maj"); ([3; 7], "m")]%string dct 6)
    as (labels & Hget & Hall).
  - intros k Hk. apply list_elem_of_fmap. exists (Z.to_nat k).
    split; [lia |]. apply elem_of_seq. lia.
  - discriminate.
  - apply (bool_decide_unpack _). vm_compute. exact I.
  - exact Hdct.
  - exists labels. split; [reflexivity |]. split; [exact Hget | exact Hall].
Defined.

Lemma dict_set_keys_order (k : Z) (v : list string)
    (d : pydict Z (list string)) :
  dict_keys (dict_set k v d) = first_seen (dict_keys d) k.
Proof.
  induction d as [|[k0 v0] d IH]; [done |].
  cbn [dict_set].
  change (dict_keys ((k0, v0) :: d)) with (k0 :: dict_keys d).
  destruct (decide (k = k0)) as [->|Hne].
  - change (dict_keys ((k0, v) :: d)) with (k0 :: dict_keys d).
    unfold first_seen. rewrite decide_True; [done | apply list_elem_of_here].
  - change (dict_keys ((k0, v0) :: dict_set k v d))
      with (k0 :: dict_keys (dict_set k v d)).
    rewrite IH. unfold first_seen.
    destruct (decide (k ∈ dict_keys d)) as [Hin|Hnot].
    + rewrite decide_True; [done | by apply list_elem_of_further].
    + rewrite decide_False; [done |].
      intros [?|?]%elem_of_cons; done.
Qed.

Lemma some_shape_fits_filter (mode : list Z)
    (chord_intervals : pydict (list Z) string) (key : Z) :
  some_shape_fits mode chord_intervals key = true <->
  filter (fun it => fitsb mode key it) (dict_keys chord_intervals) ≠ [].
Proof.
  unfold some_shape_fits.
  induction (dict_keys chord_intervals) as [|t ts IH].
  - split; [done | by intros H].
  - cbn [existsb]. rewrite filter_cons. case_decide as Hd.
    + apply Is_true_true in Hd. rewrite Hd. split; done.
    + apply Is_true_false in Hd. rewrite Hd. apply IH.
Qed.

Lemma chords_loop_key_order (mode : list Z) (pitch_dct : gmap Z string)
    (chord_intervals : pydict (list Z) string) (roots : list Z)
    (dct0 dct : pydict Z (list string)) :
  chords_loop mode pitch_dct chord_intervals dct0 roots = Ok dct ->
  dict_keys dct
  = foldl first_seen (dict_keys dct0)
          (filter (fun k => some_shape_fits mode chord_intervals k)
                  ((fun r => r `mod` 12) <$> roots)).
Proof.
  revert dct0. induction roots as [|r roots IH]; intros dct0 Hloop.
  - by injection Hloop as <-.
  - apply chords_loop_cons in Hloop as (labels & Hl & Hloop).
    apply IH in Hloop. rewrite Hloop, fmap_cons, filter_cons.
    apply mapM_Ok_Forall2, Forall2_length in Hl.
    destruct (some_shape_fits mode chord_intervals (r `mod` 12)) eqn:Hfit.
    + rewrite decide_True by exact I. cbn [foldl].
      apply some_shape_fits_filter in Hfit.
      destruct labels as [|l ls].
      * exfalso. apply Hfit. by apply nil_length_inv.
      * by rewrite dict_set_keys_order.
    + rewrite decide_False by (by intros []).
      destruct labels as [|l ls]; [done |].
      assert (some_shape_fits mode chord_intervals (r `mod` 12) = true)
        as Hfit'; [| congruence].
      apply some_shape_fits_filter. intros Hnil.
      rewrite Hnil in Hl. discriminate Hl.
Qed.

(** X9.  The keys of the dictionary [get_possible_chords] returns stand
    in the order in which the mode first reaches them: they are the
    reduced offsets of the mode at which some chord shape fits, in mode
    order, a root met again keeping the place of its first visit.  This
    is the order in which [pretty_print_dict] prints the roots. *)
Theorem get_possible_chords_key_order (mode : list Z)
    (pitch_dct : gmap Z string) (chord_intervals : pydict (list Z) string)
    (dct : pydict Z (list string)) :
  get_possible_chords mode pitch_dct chord_intervals = Ok dct ->
  dict_keys dct
  = foldl first_seen []
          (filter (fun k => some_shape_fits mode chord_intervals k)
                  ((fun r => r `mod` 12) <$> mode)).
Proof. intros Hdct. by apply chords_loop_key_order in Hdct. Qed.

Lemma get_possible_chords_key_order_witness :
  get_possible_chords [7; 11; 2; 12; 4; 0; 19] c_pitches triads
  = Ok [(7, ["G maj"]); (0, ["C maj"]); (4, ["E m"])]%string /\
  dict_keys [(7, ["G maj"]); (0, ["C maj"]); (4, ["E m"])]%string
  = foldl first_seen []
          (filter (fun k =>
                     some_shape_fits [7; 11; 2; 12; 4; 0; 19] triads k)
                  ((fun r => r `mod` 12) <$> [7; 11; 2; 12; 4; 0; 19])).
Proof.
  split; [reflexivity |].
  apply (get_possible_chords_key_order [7; 11; 2; 12; 4; 0; 19]
           c_pitches triads).
  reflexivity.
Defined.

(** ** [convert_seps] *)

Lemma convert_seps_cumulative (lst : list Z) :
  convert_seps lst = 0 :: cumulative_offsets 0 lst.
Proof.
  unfold convert_seps. simpl. f_equal.
  rewrite cumulative_offsets_seq. by apply list_fmap_ext.
Qed.

Lemma differences_cumulative (acc : Z) (seps : list Z) :
  differences (acc :: cumulative_offsets acc seps) = seps.
Proof.
  revert acc. induction seps as [|s seps IH]; intros acc; [done |].
  cbn [cumulative_offsets].
  change (differences (acc :: (acc + s) :: cumulative_offsets (acc + s) seps))
    with ((acc + s - acc)
          :: differences ((acc + s) :: cumulative_offsets (acc + s) seps)).
  rewrite IH. f_equal. lia.
Qed.

Lemma last_cumulative (acc : Z) (seps : list Z) :
  last (acc :: cumulative_offsets acc seps) = Some (acc + sum seps).
Proof.
  revert acc. induction seps as [|s seps IH]; intros acc.
  - simpl. f_equal. unfold sum. simpl. lia.
  - cbn [cumulative_offsets]. rewrite last_cons_cons, IH. f_equal.
    rewrite !sum_foldr. simpl. lia.
Qed.

(** X10.  The separations can be read back from the offsets:
    the steps between consecutive elements of [convert_seps lst] are
    [lst] again, and the last offset is the total of the separations (12
    for a scale that closes the octave). *)
Theorem convert_seps_round_trip (lst : list Z) :
  differences (convert_seps lst) = lst /\
  last (convert_seps lst) = Some (sum lst).
Proof.
  rewrite convert_seps_cumulative. split.
  - apply differences_cumulative.
  - by rewrite last_cumulative.
Qed.

Lemma cumulative_offsets_bounds (acc : Z) (seps : list Z) (x : Z) :
  (forall s, s ∈ seps -> 0 < s) ->
  x ∈ cumulative_offsets acc seps -> acc < x <= acc + sum seps.
Proof.
  revert acc. induction seps as [|s seps IH]; intros acc Hpos Hx.
  - by apply elem_of_nil in Hx.
  - cbn [cumulative_offsets] in Hx. rewrite sum_foldr. simpl.
    assert (0 < s) as Hs by apply Hpos, list_elem_of_here.
    assert (0 <= sum seps) as Hsum.
    { rewrite sum_foldr. clear -Hpos.
      induction seps as [|s' seps IH]; simpl; [lia |].
      assert (0 < s') by apply Hpos, list_elem_of_further, list_elem_of_here.
      assert (0 <= foldr Z.add 0 seps); [| lia].
      apply IH. intros s0 [->|Hs0]%elem_of_cons.
      - apply Hpos, list_elem_of_here.
      - by apply Hpos, list_elem_of_further, list_elem_of_further. }
    rewrite sum_foldr in Hsum.
    apply elem_of_cons in Hx as [->|Hx]; [lia |].
    apply IH in Hx.
    + rewrite sum_foldr in Hx. lia.
    + intros s0 Hs0. by apply Hpos, list_elem_of_further.
Qed.

Lemma cumulative_offsets_increasing (acc : Z) (seps : list Z) :
  (forall s, s ∈ seps -> 0 < s) ->
  StronglySorted Z.lt (acc :: cumulative_offsets acc seps).
Proof.
  revert acc. induction seps as [|s seps IH]; intros acc Hpos.
  - repeat constructor.
  - constructor.
    + apply IH. intros s0 Hs0. by apply Hpos, list_elem_of_further.
    + apply Forall_forall. intros x Hx.
      by apply (cumulative_offsets_bounds acc (s :: seps)) in Hx as [? _].
Qed.

(** X11.  When every separation is positive the offsets rise strictly,
    so no offset is listed twice, and they all lie between 0 and the
    total of the separations. *)
Theorem convert_seps_increasing (lst : list Z) :
  (forall s : Z, s ∈ lst -> 0 < s) ->
  StronglySorted Z.lt (convert_seps lst) /\
  NoDup (convert_seps lst) /\
  (forall x : Z, x ∈ convert_seps lst -> 0 <= x <= sum lst).
Proof.
  intros Hpos. rewrite convert_seps_cumulative.
  pose proof (cumulative_offsets_increasing 0 lst Hpos) as Hsorted.
  split; [done |]. split.
  - clear Hpos. induction Hsorted as [|a l Hs IH Hall]; [constructor |].
    apply NoDup_cons. split; [| done].
    intros Hin. rewrite Forall_forall in Hall. apply Hall in Hin. lia.
  - intros x [->|Hx]%elem_of_cons.
    + split; [lia |]. destruct lst as [|s lst]; [done |].
      assert (0 ∈ 0 :: cumulative_offsets 0 (s :: lst)) as H0
        by apply list_elem_of_here.
      assert (0 + s ∈ cumulative_offsets 0 (s :: lst)) as Hs
        by apply list_elem_of_here.
      apply (cumulative_offsets_bounds 0 (s :: lst)) in Hs; [lia | done].
    + apply (cumulative_offsets_bounds 0 lst) in Hx; [lia | done].
Qed.

Lemma convert_seps_increasing_witness :
  (forall s : Z, s ∈ [2; 2; 1; 2; 2; 2; 1] -> 0 < s) /\
  NoDup c_major /\
  (forall x : Z, x ∈ c_major -> 0 <= x <= 12).
Proof.
  assert (forall s : Z, s ∈ [2; 2; 1; 2; 2; 2; 1] -> 0 < s) as Hpos.
  { intros s Hs. repeat (apply elem_of_cons in Hs as [->|Hs]; [lia |]).
    by apply elem_of_nil in Hs. }
  split; [exact Hpos |].
  destruct (convert_seps_increasing [2; 2; 1; 2; 2; 2; 1] Hpos)
    as (_ & Hnd & Hrange).
  split; [exact Hnd | exact Hrange].
Defined.

(** ** [generate_pitch_names] *)

Lemma pitch_table_rotated (b : bool) (d : nat) (starting_pitch : string) :
  pitch_names_for b !! d = Some starting_pitch ->
  match pitch_table (pitch_names_for b) starting_pitch with
  | Ok m => rotated_by (pitch_names_for b) d m
  | Raise _ => false
  end = true.
Proof.
  intros Hd. destruct b; vm_compute in Hd.
  all: do 12 (destruct d as [|d];
              [injection Hd as <-; vm_compute; reflexivity |]).
  all: discriminate Hd.
Qed.

(** X12.  The mapping is the chromatic list of the spelling in force,
    rotated: when the starting pitch stands at position [d] of that list,
    the name at position [i] of the list is found under index [i - d]
    reduced to the octave.  A semitone up in the list is a semitone up in
    the mapping, wrapping round after index 11. *)
Theorem generate_pitch_names_rotation (starting_pitch : string)
    (sharped : bool) (d : nat) :
  pitch_names_for (resolved_sharped starting_pitch sharped) !! d
  = Some starting_pitch ->
  exists m : gmap Z string,
    generate_pitch_names starting_pitch sharped = Ok m /\
    forall (i : nat) (name : string),
      pitch_names_for (resolved_sharped starting_pitch sharped) !! i
      = Some name ->
      m !! ((Z.of_nat i - Z.of_nat d) `mod` 12) = Some name.
Proof.
  intros Hd. unfold generate_pitch_names. simpl.
  pose proof (pitch_table_rotated _ _ _ Hd) as Hrot.
  destruct (pitch_table _ starting_pitch) as [m|e]; [| discriminate Hrot].
  exists m. split; [done |]. intros i name Hi.
  unfold rotated_by in Hrot. rewrite forallb_forall in Hrot.
  rewrite <- Hi. apply (bool_decide_eq_true_1 _), Hrot.
  apply list_elem_of_In, elem_of_seq. apply lookup_lt_Some in Hi.
  assert (length (pitch_names_for (resolved_sharped starting_pitch sharped))
          = 12%nat) as Hlen by (by destruct (resolved_sharped _ _)).
  lia.
Qed.

Lemma generate_pitch_names_rotation_witness :
  pitch_names_for (resolved_sharped "G" true) !! 7%nat = Some "G"%string /\
  exists m : gmap Z string,
    generate_pitch_names "G" true = Ok m /\
    m !! 0 = Some "G"%string /\ m !! 11 = Some "F#"%string.
Proof.
  split; [reflexivity |].
  destruct (generate_pitch_names_rotation "G" true 7 eq_refl) as (m & Hm & Hrot).
  exists m. split; [exact Hm |]. split.
  - apply (Hrot 7%nat). reflexivity.
  - apply (Hrot 6%nat). reflexivity.
Defined.

(** X13.  [generate_pitch_names] raises only for a starting pitch that is
    not in the list of the spelling in force, and then the [KeyError] of
    that name: the lookup of ['C'] and the calls of [reset_octave] never
    fail.  So a name with a flat is refused unless it is one of the five
    flat names, and a name with a sharp is refused when flats are asked
    for. *)
Theorem generate_pitch_names_key_error (starting_pitch : string)
    (sharped : bool) (e : exn) :
  generate_pitch_names starting_pitch sharped = Raise e <->
  ¬ (starting_pitch
     ∈ pitch_names_for (resolved_sharped starting_pitch sharped)) /\
  e = KeyError (KStr starting_pitch).
Proof.
  unfold generate_pitch_names. simpl. split.
  - intros Hraise.
    destruct (decide (starting_pitch
                      ∈ pitch_names_for
                          (resolved_sharped starting_pitch sharped)))
      as [Hin|Hnot].
    + destruct (pitch_table_valid _ _ Hin) as (m & Hm). congruence.
    + split; [done |]. rewrite pitch_table_invalid in Hraise by done.
      congruence.
  - intros [Hnot ->]. by apply pitch_table_invalid.
Qed.

(** ** [proc_config_info] *)




Lemma dict_get_set {K V : Type} `{EqDecision K} (k k' : K) (v : V)
    (d : list (K * V)) :
  dict_get k' (dict_set k v d)
  = if decide (k = k') then Some v else dict_get k' d.
Proof.
  case_decide as Hk.
  - subst. apply dict_get_set_eq.
  - by apply dict_get_set_ne.
Qed.

Lemma intervals_loop_last (cds1 cds2 : pydict string py_expr)
    (name : string) (v : py_expr) (t : list Z)
    (d0 intervals : pydict (list Z) string) :
  foldM (fun d '(k, v) => t ← tuple_eval v; Ok (dict_set t k d))
        d0 (cds1 ++ (name, v) :: cds2) = Ok intervals ->
  tuple_eval v = Ok t ->
  (forall kv, kv ∈ cds2 -> tuple_eval kv.2 ≠ Ok t) ->
  dict_get t intervals = Some name.
Proof.
  revert d0. induction cds1 as [|[k1 v1] cds1 IH]; intros d0 Hloop Hv Hlater.
  - simpl in Hloop. rewrite Hv in Hloop. simpl in Hloop.
    assert (dict_get t (dict_set t name d0) = Some name) as Hget
      by apply dict_get_set_eq.
    revert Hloop Hget. generalize (dict_set t name d0). clear Hv.
    induction cds2 as [|[k2 v2] cds2 IH2]; intros d Hloop Hget.
    + by injection Hloop as <-.
    + cbn [foldM] in Hloop. apply bind_Ok in Hloop as (d' & Hd' & Hloop).
      apply bind_Ok in Hd' as (t2 & Ht2 & [= <-]).
      eapply IH2; [| exact Hloop |].
      * intros kv Hkv. by apply Hlater, list_elem_of_further.
      * rewrite dict_get_set_ne; [done |]. intros ->.
        by apply (Hlater (k2, v2)); [apply list_elem_of_here |].
  - simpl in Hloop. apply bind_Ok in Hloop as (d' & _ & Hloop).
    by eapply IH.
Qed.

Lemma modes_loop_last (mds1 mds2 : pydict string (list Z)) (name : string)
    (seps : list Z) (d0 : pydict string (list Z)) :
  name ∉ dict_keys mds2 ->
  dict_get name
    (foldl (fun d '(k, v) => dict_set k (convert_seps v) d) d0
           (mds1 ++ (name, seps) :: mds2))
  = Some (convert_seps seps).
Proof.
  intros Hlater. rewrite foldl_app. cbn [foldl].
  assert (dict_get name
            (dict_set name (convert_seps seps)
               (foldl (fun d '(k, v) => dict_set k (convert_seps v) d)
                      d0 mds1)) = Some (convert_seps seps)) as Hget
    by apply dict_get_set_eq.
  revert Hget. generalize (dict_set name (convert_seps seps)
    (foldl (fun d '(k, v) => dict_set k (convert_seps v) d) d0 mds1)).
  induction mds2 as [|[k2 v2] mds2 IH]; intros d Hget; [done |].
  cbn [foldl]. apply IH.
  - intros Hin. apply Hlater. unfold dict_keys in *. simpl.
    by apply list_elem_of_further.
  - rewrite dict_get_set_ne; [done |]. intros ->. apply Hlater.
    unfold dict_keys. simpl. apply list_elem_of_here.
Qed.

(** X15.  What the two tables hold.  A mode name is mapped to
    [convert_seps] of its separations, as last defined.  The chord table
    is keyed by the offsets, so of several chord names defined with the
    same offsets only the last survives: the tuple is mapped to the name
    of the last definition that evaluates to it. *)
Theorem proc_config_info_tables (fs : file_system) (cfg_file : string)
    (cfg : yaml_cfg) (modes : pydict string (list Z))
    (intervals : pydict (list Z) string) :
  fs !! cfg_file = Some cfg ->
  proc_config_info fs cfg_file = Ok (modes, intervals) ->
  (forall mds1 mds2 name seps,
      mode_definitions cfg = Some (mds1 ++ (name, seps) :: mds2) ->
      name ∉ dict_keys mds2 ->
      dict_get name modes = Some (convert_seps seps)) /\
  (forall cds1 cds2 name v t,
      chord_definitions cfg = Some (cds1 ++ (name, v) :: cds2) ->
      tuple_eval v = Ok t ->
      (forall kv, kv ∈ cds2 -> tuple_eval kv.2 ≠ Ok t) ->
      dict_get t intervals = Some name).
Proof.
  intros Hfs Hok.
  apply proc_config_info_Ok in Hok
    as (cfg' & cds & mds & Hfs' & Hc & Hm & Hi & ->).
  assert (cfg' = cfg) as -> by congruence.
  split.
  - intros mds1 mds2 name seps Hm' Hlater.
    assert (mds = mds1 ++ (name, seps) :: mds2) as -> by congruence.
    by apply modes_loop_last.
  - intros cds1 cds2 name v t Hc' Hv Hlater.
    assert (cds = cds1 ++ (name, v) :: cds2) as -> by congruence.
    by eapply intervals_loop_last.
Qed.

Lemma proc_config_info_tables_witness :
  dict_get [4; 7]
    [([4; 7], "major"%string)] = Some "major"%string /\
  dict_get "whole"%string [("whole"%string, [0; 2; 4])]
  = Some (convert_seps [2; 2]).
Proof.
  destruct (proc_config_info_tables alias_fs "chord_config.yml" alias_cfg
              [("whole"%string, [0; 2; 4])] [([4; 7], "major"%string)]
              eq_refl eq_refl) as [Hmodes Hchords].
  split.
  - apply (Hchords [("maj"%string, ETuple [ILit 4; ILit 7])] []
             "major"%string (EList [ILit 4; ILit 7])).
    + reflexivity.
    + reflexivity.
    + intros kv Hkv. by apply elem_of_nil in Hkv.
  - apply (Hmodes [] [] "whole"%string [2; 2]).
    + reflexivity.
    + apply not_elem_of_nil.
Defined.

(** ** [chord_finder] *)

Lemma intervals_values (cds : pydict string py_expr)
    (d0 intervals : pydict (list Z) string) (t : list Z) (c : string) :
  foldM (fun d '(k, v) => t ← tuple_eval v; Ok (dict_set t k d)) d0 cds
  = Ok intervals ->
  dict_get t intervals = Some c ->
  dict_get t d0 = Some c \/ c ∈ dict_keys cds.
Proof.
  revert d0. induction cds as [|[k v] cds IH]; intros d0 Hloop Hget.
  - injection Hloop as <-. by left.
  - cbn [foldM] in Hloop. apply bind_Ok in Hloop as (d' & Hd' & Hloop).
    apply bind_Ok in Hd' as (t' & _ & [= <-]).
    destruct (IH _ Hloop Hget) as [Hd|Hin].
    + rewrite dict_get_set in Hd. case_decide.
      * injection Hd as <-. right. apply list_elem_of_here.
      * by left.
    + right. unfold dict_keys in *. simpl. by apply list_elem_of_further.
Qed.

Lemma pretty_print_dict_elem (chord_dct : pydict Z (list string))
    (line : string) :
  line ∈ pretty_print_dict chord_dct ->
  exists (k : Z) (v : list string) (x : string),
    (k, v) ∈ chord_dct /\ x ∈ v /\ line = " - " +:+ x.
Proof.
  unfold pretty_print_dict.
  induction chord_dct as [|[k v] d IH]; simpl; intros Hin.
  - by apply elem_of_nil in Hin.
  - apply elem_of_app in Hin as [Hin|Hin].
    + apply list_elem_of_fmap in Hin as (x & -> & Hx).
      exists k, v, x. split; [apply list_elem_of_here |].
      split; [| done]. by rewrite <- (sorted_perm v).
    + destruct (IH Hin) as (k' & v' & x & Hkv & Hx & ->).
      exists k', v', x. split; [by apply list_elem_of_further | done].
Qed.

(** X16.  With a configuration whose chord definitions are all list or
    tuple displays, a mode name the configuration defines and a pitch
    name of the spelling in force, [chord_finder] ends normally, whatever
    arguments follow the first two, and every line it prints is [" - "],
    one of the twelve pitch names filled to two characters, and one of
    the chord names of the configuration. *)
Theorem chord_finder_prints_labels (fs : file_system) (pitch mode : string)
    (rest : list string) (cfg : yaml_cfg) (cds : pydict string py_expr)
    (mds : pydict string (list Z)) :
  fs !! "chord_config.yml"%string = Some cfg ->
  chord_definitions cfg = Some cds ->
  Forall (fun kv => is_display kv.2 = true) cds ->
  mode_definitions cfg = Some mds ->
  mode ∈ dict_keys mds ->
  pitch ∈ pitch_names_for (resolved_sharped pitch true) ->
  exists lines : list string,
    chord_finder fs (pitch :: mode :: rest) = (lines, Ok ()) /\
    forall line : string,
      line ∈ lines ->
      exists p c : string,
        line = " - " +:+ (ljust2 p +:+ c) /\
        p ∈ pitch_names_for (resolved_sharped pitch true) /\
        c ∈ dict_keys cds.
Proof.
  intros Hfs Hc Hall Hm Hmode Hpitch.
  destruct (intervals_keys cds [] Hall) as (intervals & Hi & _).
  set (modes := foldl (fun d '(k, v) => dict_set k (convert_seps v) d) [] mds).
  assert (proc_config_info fs "chord_config.yml" = Ok (modes, intervals))
    as Hcfg by (apply proc_config_info_Ok; by exists cfg, cds, mds).
  pose proof (pitch_table_ok _ _ Hpitch) as Hok.
  destruct (pitch_table (pitch_names_for (resolved_sharped pitch true)) pitch)
    as [pn|e] eqn:Hpn; [| discriminate Hok].
  apply pitch_mapping_ok_sound in Hok as (_ & Hdom & _ & Hnames & _).
  assert (covers_octave pn) as Hcov by (intros k Hk; by apply Hdom).
  destruct (dict_get_is_Some mode modes) as (mode_lst & Hlst).
  { apply modes_keys. by right. }
  destruct (chords_loop_total mode_lst pn intervals mode_lst [] Hcov)
    as (dct & Hdct).
  exists (pretty_print_dict dct). split.
  - unfold chord_finder, chord_finder_search. simpl. rewrite Hcfg. simpl.
    unfold generate_pitch_names. simpl. rewrite Hpn. simpl.
    unfold getitem. rewrite Hlst. simpl.
    unfold get_possible_chords. by rewrite Hdct.
  - intros line Hline.
    apply pretty_print_dict_elem in Hline as (k & v & x & Hkv & Hx & ->).
    assert (Forall (fun kv : Z * list string =>
                      matches_at mode_lst pn intervals kv.1 = Ok kv.2) dct)
      as Hentries.
    { eapply chords_loop_entries; [| exact Hdct | constructor].
      by intros r l ls _ Hl. }
    rewrite Forall_forall in Hentries. apply Hentries in Hkv. simpl in Hkv.
    apply mapM_Ok_Forall2 in Hkv.
    apply list_elem_of_lookup in Hx as (i & Hx).
    destruct (Forall2_lookup_r _ _ _ _ _ Hkv Hx) as (t & _ & Hname).
    unfold name_chord, getitem_map, getitem in Hname.
    destruct (pn !! k) as [p|] eqn:Hp; [| discriminate Hname].
    simpl in Hname.
    destruct (dict_get t intervals) as [c|] eqn:Hget; [| discriminate Hname].
    injection Hname as <-. exists p, c. split; [done |]. split.
    + apply Hnames. by exists k.
    + by destruct (intervals_values _ _ _ _ _ Hi Hget).
Qed.

Lemma chord_finder_prints_labels_witness :
  exists lines : list string,
    chord_finder sample_fs ["A"; "major"; "extra"]%string = (lines, Ok ()) /\
    forall line : string,
      line ∈ lines ->
      exists p c : string,
        line = " - " +:+ (ljust2 p +:+ c) /\
        p ∈ pitch_names_for (resolved_sharped "A" true) /\
        c ∈ dict_keys [("maj"%string, ETuple [ILit 4; ILit 7]);
                       ("m"%string, EList [ILit 3; ILit 7])].
Proof.
  apply (chord_finder_prints_labels sample_fs "A" "major" ["extra"%string]
           sample_cfg _ [("major"%string, [2; 2; 1; 2; 2; 2; 1])]).
  - reflexivity.
  - reflexivity.
  - repeat constructor.
  - reflexivity.
  - apply list_elem_of_here.
  - apply (bool_decide_unpack _). vm_compute. exact I.
Defined.

(** ** [get_possible_chords]: when it raises *)

Lemma name_chord_missing_root (root : Z) (it : list Z)
    (pitch_dct : gmap Z string) (chord_intervals : pydict (list Z) string) :
  pitch_dct !! root = None ->
  name_chord root it pitch_dct chord_intervals = Raise (KeyError (KInt root)).
Proof. intros Hp. unfold name_chord, getitem_map. by rewrite Hp. Qed.

Lemma matches_at_Raise (mode : list Z) (pitch_dct : gmap Z string)
    (chord_intervals : pydict (list Z) string) (key : Z) (e : exn) :
  matches_at mode pitch_dct chord_intervals key = Raise e ->
  e = KeyError (KInt key) /\
  pitch_dct !! key = None /\
  some_shape_fits mode chord_intervals key = true.
Proof.
  intros Hraise.
  destruct (pitch_dct !! key) as [p|] eqn:Hp.
  { destruct (matches_at_total mode pitch_dct chord_intervals key)
      as (labels & Hl); [by exists p | congruence]. }
  unfold matches_at in Hraise.
  destruct (filter (fun it => fitsb mode key it) (dict_keys chord_intervals))
    as [|t ts] eqn:Hf; [discriminate Hraise |].
  split; [| split; [done |]].
  - cbn [mapM] in Hraise. rewrite name_chord_missing_root in Hraise by done.
    simpl in Hraise. congruence.
  - apply some_shape_fits_filter. by rewrite Hf.
Qed.

Lemma matches_at_missing_root (mode : list Z) (pitch_dct : gmap Z string)
    (chord_intervals : pydict (list Z) string) (key : Z) :
  pitch_dct !! key = None ->
  some_shape_fits mode chord_intervals key = true ->
  matches_at mode pitch_dct chord_intervals key = Raise (KeyError (KInt key)).
Proof.
  intros Hp Hfit. apply some_shape_fits_filter in Hfit.
  unfold matches_at.
  destruct (filter (fun it => fitsb mode key it) (dict_keys chord_intervals))
    as [|t ts]; [done |].
  cbn [mapM]. by rewrite name_chord_missing_root.
Qed.

Lemma chords_loop_Raise (mode : list Z) (pitch_dct : gmap Z string)
    (chord_intervals : pydict (list Z) string) (roots : list Z)
    (dct0 : pydict Z (list string)) (e : exn) :
  chords_loop mode pitch_dct chord_intervals dct0 roots = Raise e ->
  exists r, r ∈ roots /\
            matches_at mode pitch_dct chord_intervals (r `mod` 12) = Raise e.
Proof.
  revert dct0. induction roots as [|r roots IH]; intros dct0 Hraise.
  - discriminate Hraise.
  - unfold chords_loop in Hraise. cbn [foldM] in Hraise.
    rewrite reset_octave_eq in Hraise. simpl in Hraise.
    rewrite possible_chords_at_eq in Hraise.
    destruct (matches_at mode pitch_dct chord_intervals (r `mod` 12))
      as [labels|e'] eqn:Hr.
    + simpl in Hraise.
      destruct (IH (match labels with
                    | [] => dct0
                    | _ :: _ => dict_set (r `mod` 12) labels dct0
                    end)) as (r' & Hr' & Hm).
      { unfold chords_loop. by destruct labels. }
      exists r'. split; [by apply list_elem_of_further | done].
    + simpl in Hraise. injection Hraise as ->.
      exists r. split; [apply list_elem_of_here | done].
Qed.

(** X17.  [get_possible_chords] raises exactly when some offset of the
    mode reduces to a root that is missing from the pitch mapping and at
    which some chord shape fits; the exception is then the [KeyError] of
    such a root.  A root missing from the pitch mapping does no harm when
    no shape fits there. *)
Theorem get_possible_chords_raises (mode : list Z)
    (pitch_dct : gmap Z string) (chord_intervals : pydict (list Z) string) :
  (forall e : exn,
      get_possible_chords mode pitch_dct chord_intervals = Raise e ->
      exists r : Z,
        r ∈ mode /\
        e = KeyError (KInt (r `mod` 12)) /\
        pitch_dct !! (r `mod` 12) = None /\
        some_shape_fits mode chord_intervals (r `mod` 12) = true) /\
  ((exists r : Z,
       r ∈ mode /\
       pitch_dct !! (r `mod` 12) = None /\
       some_shape_fits mode chord_intervals (r `mod` 12) = true) ->
   exists e : exn,
     get_possible_chords mode pitch_dct chord_intervals = Raise e).
Proof.
  split.
  - intros e Hraise.
    apply chords_loop_Raise in Hraise as (r & Hr & Hm).
    apply matches_at_Raise in Hm as (-> & Hp & Hfit).
    by exists r.
  - intros (r & Hr & Hp & Hfit).
    destruct (get_possible_chords mode pitch_dct chord_intervals)
      as [dct|e] eqn:Hdct; [| by exists e].
    destruct (chords_loop_matches_ok _ _ _ _ _ _ _ Hdct Hr) as (labels & Hl).
    rewrite matches_at_missing_root in Hl by done. discriminate Hl.
Qed.

Lemma get_possible_chords_raises_witness :
  get_possible_chords [0; 4; 7] {[ 0 := "C"%string ]} triads = Ok [(0, ["C maj"%string])] /\
  exists e : exn,
    get_possible_chords [0; 4; 7; 11] {[ 0 := "C"%string ]} triads = Raise e.
Proof.
  split; [reflexivity |].
  apply (get_possible_chords_raises [0; 4; 7; 11] {[ 0 := "C"%string ]} triads).
  exists 4. split; [| split; reflexivity].
  apply list_elem_of_further, list_elem_of_here.
Defined.

(** X18.  With an empty mode, or an empty chord table, the result is the
    empty dictionary, whatever the pitch mapping. *)
Theorem get_possible_chords_empty (mode : list Z) (pitch_dct : gmap Z string)
    (chord_intervals : pydict (list Z) string) :
  get_possible_chords [] pitch_dct chord_intervals = Ok [] /\
  get_possible_chords mode pitch_dct [] = Ok [].
Proof.
  split; [done |].
  unfold get_possible_chords. generalize mode at 1. intros mode0.
  induction mode as [|r roots IH]; [done |].
  apply chords_loop_cons. exists []. split; [done | exact IH].
Qed.

(** ** [get_possible_chords]: the pitch names only name *)

Lemma dict_set_aligned (k : Z) (v1 v2 : list string)
    (d1 d2 : pydict Z (list string)) :
  length v1 = length v2 ->
  Forall2 (fun kv1 kv2 : Z * list string =>
             kv1.1 = kv2.1 /\ length kv1.2 = length kv2.2) d1 d2 ->
  Forall2 (fun kv1 kv2 : Z * list string =>
             kv1.1 = kv2.1 /\ length kv1.2 = length kv2.2)
          (dict_set k v1 d1) (dict_set k v2 d2).
Proof.
  intros Hlen Hall. induction Hall as [|[k1 l1] [k2 l2] d1 d2 [Hk Hl] Hall IH].
  - by repeat constructor.
  - simpl in Hk. subst k2. simpl.
    destruct (decide (k = k1)); constructor; done.
Qed.

Lemma chords_loop_aligned (mode : list Z) (pitch_dct1 pitch_dct2 : gmap Z string)
    (chord_intervals : pydict (list Z) string) (roots : list Z)
    (dct01 dct02 dct1 dct2 : pydict Z (list string)) :
  chords_loop mode pitch_dct1 chord_intervals dct01 roots = Ok dct1 ->
  chords_loop mode pitch_dct2 chord_intervals dct02 roots = Ok dct2 ->
  Forall2 (fun kv1 kv2 : Z * list string =>
             kv1.1 = kv2.1 /\ length kv1.2 = length kv2.2) dct01 dct02 ->
  Forall2 (fun kv1 kv2 : Z * list string =>
             kv1.1 = kv2.1 /\ length kv1.2 = length kv2.2) dct1 dct2.
Proof.
  revert dct01 dct02.
  induction roots as [|r roots IH]; intros dct01 dct02 H1 H2 Hall.
  - injection H1 as <-. by injection H2 as <-.
  - apply chords_loop_cons in H1 as (labels1 & Hl1 & H1).
    apply chords_loop_cons in H2 as (labels2 & Hl2 & H2).
    apply mapM_Ok_Forall2, Forall2_length in Hl1, Hl2.
    assert (length labels1 = length labels2) as Hlen by congruence.
    eapply IH; [exact H1 | exact H2 |].
    destruct labels1 as [|a1 l1], labels2 as [|a2 l2];
      [done | discriminate Hlen | discriminate Hlen |].
    by apply dict_set_aligned.
Qed.

(** X19.  The pitch mapping only names what is found.  For two pitch
    mappings defined on 0..11 (two starting pitches, or the two
    spellings) the results for the same mode and chord table have the
    same keys in the same order and as many labels under each key, so
    [pretty_print_dict] prints as many lines for one as for the other. *)
Theorem get_possible_chords_transposed (mode : list Z)
    (pitch_dct1 pitch_dct2 : gmap Z string)
    (chord_intervals : pydict (list Z) string) :
  covers_octave pitch_dct1 ->
  covers_octave pitch_dct2 ->
  exists dct1 dct2 : pydict Z (list string),
    get_possible_chords mode pitch_dct1 chord_intervals = Ok dct1 /\
    get_possible_chords mode pitch_dct2 chord_intervals = Ok dct2 /\
    Forall2 (fun kv1 kv2 : Z * list string =>
               kv1.1 = kv2.1 /\ length kv1.2 = length kv2.2) dct1 dct2 /\
    length (pretty_print_dict dct1) = length (pretty_print_dict dct2).
Proof.
  intros Hcov1 Hcov2.
  destruct (chords_loop_total mode pitch_dct1 chord_intervals mode [] Hcov1)
    as (dct1 & Hdct1).
  destruct (chords_loop_total mode pitch_dct2 chord_intervals mode [] Hcov2)
    as (dct2 & Hdct2).
  exists dct1, dct2. split; [done |]. split; [done |].
  assert (Forall2 (fun kv1 kv2 : Z * list string =>
                     kv1.1 = kv2.1 /\ length kv1.2 = length kv2.2) dct1 dct2)
    as Hall by (eapply chords_loop_aligned; [exact Hdct1 | exact Hdct2 | constructor]).
  split; [done |].
  unfold pretty_print_dict. clear -Hall.
  induction Hall as [|[k1 l1] [k2 l2] d1 d2 [_ Hl] Hall IH]; [done |].
  simpl in *. rewrite !length_app, !length_fmap, IH.
  by rewrite (Permutation_length (sorted_perm l1)),
       (Permutation_length (sorted_perm l2)), Hl.
Qed.

Lemma db_pitches_covers_octave : covers_octave db_pitches.
Proof.
  intros k Hk.
  assert (k ∈ Z.of_nat <$> seq 0 12) as Hin.
  { apply list_elem_of_fmap. exists (Z.to_nat k). split; [lia |].
    apply elem_of_seq. lia. }
  vm_compute in Hin.
  repeat (apply elem_of_cons in Hin as [->|Hin]); try (by vm_compute; eauto).
  by apply elem_of_nil in Hin.
Qed.

Lemma get_possible_chords_transposed_witness :
  (covers_octave c_pitches /\ covers_octave db_pitches) /\
  exists dct1 dct2 : pydict Z (list string),
    get_possible_chords c_major c_pitches triads = Ok dct1 /\
    get_possible_chords c_major db_pitches triads = Ok dct2 /\
    length (pretty_print_dict dct1) = length (pretty_print_dict dct2).
Proof.
  split; [split; [apply c_pitches_covers_octave | apply db_pitches_covers_octave] |].
  destruct (get_possible_chords_transposed c_major c_pitches db_pitches triads
              c_pitches_covers_octave db_pitches_covers_octave)
    as (dct1 & dct2 & H1 & H2 & _ & Hlen).
  by exists dct1, dct2.
Defined.
